(** * substream: words -> subtitle cues -> SRT text

    A shallow embedding of [src/substream/srt_utils.py].

    The three stages of [words_to_srt] are Python generators chained
    lazily.  A generator run is modelled by what a consumer observes of
    it: the items it yields, in order, and the way it ends (normally or
    by an exception).  Python (3.7 and later, PEP 479) semantics are
    followed: a [StopIteration] that escapes from the body of a
    generator surfaces as [RuntimeError].

    A word record ([dict] with keys ['word'], ['start_time'],
    ['end_time']) is a Rocq record.  The word source is assumed to
    hand out a fresh record per word, so the in-place updates of the
    source ([word['word'] = ...], [prev_sub[-1]['end_time'] = ...])
    are functional updates of the element concerned.  Text is a
    [string]; one [ascii] stands for one character.  Python [int]s are
    [Z].  Seconds are Python [float]s: the code is written over an
    interface of the arithmetic it uses ([PyNum]), instantiated with
    binary64 ([PyFloat]) and with exact rationals ([PyQ]). *)

From Stdlib Require Import ZArith List String Ascii Bool Lia.
From Stdlib Require Import QArith Qround Floats DecimalString.
Import ListNotations.

Set Warnings "-inexact-float".

Local Open Scope Z_scope.

(** ** Exceptions and generator runs *)

Inductive exn : Type :=
| IndexError      (* list index out of range *)
| RuntimeError    (* generator raised StopIteration *)
| ValueError      (* int(nan) *)
| OverflowError.  (* int(inf) *)

Inductive outcome : Type :=
| Done
| Raised (e : exn).

(** What a consumer sees of a generator: the items yielded before it
    ended, and how it ended. *)
Definition stream (A : Type) : Type := (list A * outcome)%type.

Definition bind {A B : Type} (r : exn + A) (k : A -> exn + B) : exn + B :=
  match r with
  | inl e => inl e
  | inr a => k a
  end.

Notation "x <- r ;; k" := (bind r (fun x => k))
  (at level 61, r at next level, right associativity).

(** ** Strings *)

(** The two-character marker ["\r\n"] appended at a line break. *)
Definition CRLF : string := String "013" (String "010" EmptyString).
(** ["\n"] *)
Definition LF : string := String "010" EmptyString.
Definition SPACE : string := String " " EmptyString.

(** [len(s)] *)
Definition len (s : string) : Z := Z.of_nat (String.length s).

Fixpoint last_char (s : string) : option ascii :=
  match s with
  | EmptyString => None
  | String c EmptyString => Some c
  | String _ r => last_char r
  end.

(** [s.endswith(('.', '?', '!'))] *)
Definition endswith_punct (s : string) : bool :=
  match last_char s with
  | Some c => Ascii.eqb c "." || Ascii.eqb c "?" || Ascii.eqb c "!"
  | None => false
  end.

(** Number of line feeds in a text: one less than the number of
    physical lines it spans. *)
Fixpoint count_lf (s : string) : Z :=
  match s with
  | EmptyString => 0
  | String c r => (if Ascii.eqb c "010" then 1 else 0) + count_lf r
  end.

(** [str(n)] for an [int]. *)
Definition str_int (n : Z) : string := NilZero.string_of_int (Z.to_int n).

Fixpoint zeros (n : nat) : string :=
  match n with
  | O => EmptyString
  | S k => String "0" (zeros k)
  end.

(** ['{:0w}'.format(n)] for an [int]: sign-aware zero padding to width [w]. *)
Definition fmt_zero (w : nat) (n : Z) : string :=
  let digits := NilZero.string_of_uint (N.to_uint (Z.abs_N n)) in
  if n <? 0
  then String "-" (zeros (w - 1 - String.length digits) ++ digits)
  else (zeros (w - String.length digits) ++ digits)%string.

(** ** Lists *)

(** [l[-1] = f(l[-1])] on a list known to be non-empty. *)
Fixpoint update_last {A : Type} (f : A -> A) (l : list A) : list A :=
  match l with
  | [] => []
  | [x] => [f x]
  | x :: r => x :: update_last f r
  end.

Fixpoint last_error {A : Type} (l : list A) : option A :=
  match l with
  | [] => None
  | [x] => Some x
  | _ :: r => last_error r
  end.

(** Truth value of a list: non-empty. *)
Definition truthy {A : Type} (l : list A) : bool :=
  match l with
  | [] => false
  | _ :: _ => true
  end.

(** ** The arithmetic the pipeline performs on seconds *)

Class PyNum (T : Type) : Type := {
  num_add : T -> T -> T;            (* a + b *)
  num_sub : T -> T -> T;            (* a - b *)
  num_mul : T -> T -> T;            (* a * b *)
  num_floordiv : T -> T -> T;       (* a // b, b a non-zero constant *)
  num_mod : T -> T -> T;            (* a % b,  b a non-zero constant *)
  num_ge : T -> T -> bool;          (* a >= b *)
  num_gt : T -> T -> bool;          (* a > b *)
  num_le : T -> T -> bool;          (* a <= b *)
  num_int : T -> exn + Z;           (* int(a) *)
  num_of_int : Z -> T               (* the number n: 3600 as 3600.0, 1.0 *)
}.

Section Pipeline.

Context {T : Type} {num : PyNum T}.

(** *** Data model *)

Record Word : Type := mkWord {
  word : string;
  start_time : T;
  end_time : T
}.

(** [Subtitle = Sequence[Word]] *)
Definition Subtitle : Type := list Word.

Definition set_word (w : Word) (s : string) : Word :=
  mkWord s (start_time w) (end_time w).

Definition set_end_time (w : Word) (t : T) : Word :=
  mkWord (word w) (start_time w) t.

(** *** [_words_to_subtitles] *)

Definition allowed_lines : Z := 2.

(** The local variables that live across iterations of the loop. *)
Record seg_state : Type := mkSeg {
  subtitle : list Word;
  len_line : Z;
  line_index : Z
}.

Definition seg_init : seg_state := mkSeg [] 0 0.

(** Lines 80-88: the break decision.  Returns [add_line], the buffer
    (to which a sentence-ending word has been appended) and [word]
    ([None] once it has been consumed). *)
Definition decide_break (split_on_length_gt : Z) (st : seg_state) (w : Word)
  : bool * list Word * option Word :=
  if len_line st + len (word w) >? split_on_length_gt
  then (true, subtitle st, Some w)
  else if endswith_punct (word w)
       then (true, subtitle st ++ [w], None)
       else (false, subtitle st, Some w).

(** Lines 90-102: applying a break.  Yields the buffer as a cue when
    the last allowed line is complete, otherwise marks the end of the
    line on the last buffered word. *)
Definition apply_break (add_line : bool) (sub : list Word) (st : seg_state)
  : exn + (list Subtitle * seg_state) :=
  if add_line
  then if line_index st + 1 =? allowed_lines
       then inr ([sub], mkSeg [] 0 0)
       else match sub with
            | [] => inl IndexError
            | _ :: _ =>
                inr ([], mkSeg (update_last
                                  (fun l => set_word l (word l ++ CRLF)) sub)
                               0 (line_index st + 1))
            end
  else inr ([], mkSeg sub (len_line st) (line_index st)).

(** Lines 104-107: a word not consumed by the break decision gets a
    trailing space and joins the current line. *)
Definition place_word (wd : option Word) (st : seg_state) : seg_state :=
  match wd with
  | Some w =>
      let w' := set_word w (word w ++ SPACE) in
      mkSeg (subtitle st ++ [w']) (len_line st + len (word w')) (line_index st)
  | None => st
  end.

(** One iteration of the [for word in words] loop: the cues yielded
    during it and the next state, or the exception raised. *)
Definition seg_body (split_on_length_gt : Z) (st : seg_state) (w : Word)
  : exn + (list Subtitle * seg_state) :=
  let '(add_line, sub, wd) := decide_break split_on_length_gt st w in
  r <- apply_break add_line sub st ;;
  inr (fst r, place_word wd (snd r)).

Fixpoint seg_loop (split_on_length_gt : Z) (st : seg_state) (words : list Word)
  : stream Subtitle :=
  match words with
  | [] => (if truthy (subtitle st) then [subtitle st] else [], Done)
  | w :: rest =>
      match seg_body split_on_length_gt st w with
      | inl e => ([], Raised e)
      | inr (ys, st') =>
          let '(out, o) := seg_loop split_on_length_gt st' rest in
          (ys ++ out, o)
      end
  end.

Definition _words_to_subtitles (words : list Word)
    (split_on_pause_gt : T) (split_on_length_gt : Z) : stream Subtitle :=
  seg_loop split_on_length_gt seg_init words.

(** *** [_adjust_duration] *)

(** [sub[0]['start_time']] and [sub[-1]['end_time']]; [None] stands for
    the [IndexError] of an empty cue. *)
Definition cue_start (sub : Subtitle) : option T :=
  option_map start_time (hd_error sub).

Definition cue_end (sub : Subtitle) : option T :=
  option_map end_time (last_error sub).

(** Lines 126-139: the body of the loop, up to the [yield]: the cue
    yielded for [prev_sub], given the lookahead [this_sub]. *)
Definition adjust_body (min_sub_duration : T) (prev_sub this_sub : Subtitle)
  : exn + Subtitle :=
  match cue_end prev_sub, cue_start prev_sub with
  | Some prev_end, Some prev_start =>
      let prev_sub_duration := num_sub prev_end prev_start in
      if num_ge prev_sub_duration min_sub_duration
      then inr prev_sub
      else
        let prev_start_plus_min := num_add prev_start min_sub_duration in
        match cue_start this_sub with
        | None => inl IndexError
        | Some this_start =>
            if num_gt prev_start_plus_min this_start
            then inr (update_last (fun w => set_end_time w this_start) prev_sub)
            else inr (update_last
                        (fun w => set_end_time w prev_start_plus_min) prev_sub)
        end
  | _, _ => inl IndexError
  end.

(** Lines 125-142.  [rest] and [up] are what is left of the upstream
    generator; [this_sub] is the loop variable ([None] before the first
    iteration). *)
Fixpoint adjust_loop (min_sub_duration : T) (prev_sub : Subtitle)
    (this_sub : option Subtitle) (rest : list Subtitle) (up : outcome)
  : stream Subtitle :=
  match rest with
  | [] =>
      match up with
      | Raised e => ([], Raised e)
      | Done =>
          (match this_sub with
           | Some t => if truthy t then [t] else []
           | None => []
           end, Done)
      end
  | next :: rest' =>
      match adjust_body min_sub_duration prev_sub next with
      | inl e => ([], Raised e)
      | inr y =>
          let '(out, o) :=
            adjust_loop min_sub_duration next (Some next) rest' up in
          (y :: out, o)
      end
  end.

(** Line 123: [next(subtitles)] on an exhausted generator raises
    [StopIteration] inside the generator body, which the caller sees
    as [RuntimeError]. *)
Definition _adjust_duration (subtitles : stream Subtitle)
    (min_sub_duration : T) : stream Subtitle :=
  match subtitles with
  | ([], Done) => ([], Raised RuntimeError)
  | ([], Raised e) => ([], Raised e)
  | (first :: rest, up) => adjust_loop min_sub_duration first None rest up
  end.

(** *** [_srt_fmt_time] and [_write_srt] *)

Definition _srt_fmt_time (sec : T) : exn + string :=
  h  <- num_int (num_floordiv sec (num_of_int 3600)) ;;
  mi <- num_int (num_floordiv (num_mod sec (num_of_int 3600)) (num_of_int 60)) ;;
  s  <- num_int (num_floordiv (num_mod sec (num_of_int 60)) (num_of_int 1)) ;;
  ms <- num_int (num_mul (num_mod sec (num_of_int 1)) (num_of_int 1000)) ;;
  inr (fmt_zero 2 h ++ ":" ++ fmt_zero 2 mi ++ ":" ++ fmt_zero 2 s
       ++ "," ++ fmt_zero 3 ms)%string.

(** [''.join(record['word'] for record in fragment)] *)
Definition sentence (fragment : Subtitle) : string :=
  String.concat EmptyString (map word fragment).

(** The timecode line of a cue, without its line feed. *)
Definition timecode (fragment : Subtitle) : exn + string :=
  match cue_start fragment with
  | None => inl IndexError
  | Some t0 =>
      srt_start_time <- _srt_fmt_time t0 ;;
      match cue_end fragment with
      | None => inl IndexError
      | Some t1 =>
          srt_end_time <- _srt_fmt_time t1 ;;
          inr (srt_start_time ++ " --> " ++ srt_end_time)%string
      end
  end.

(** Lines 155-162: the text written for the cue at 0-based position [i]. *)
Definition write_fragment (i : Z) (fragment : Subtitle) : exn + string :=
  tc <- timecode fragment ;;
  inr (str_int (i + 1) ++ LF ++ tc ++ LF ++ sentence fragment ++ LF ++ LF)%string.

(** [srt_file] is the text written so far; the sink accepts every write. *)
Fixpoint write_loop (i : Z) (subs : list Subtitle) (up : outcome)
    (srt_file : string) : string * outcome :=
  match subs with
  | [] => (srt_file, up)
  | fragment :: rest =>
      match write_fragment i fragment with
      | inl e => (srt_file, Raised e)
      | inr text => write_loop (i + 1) rest up (srt_file ++ text)
      end
  end.

Definition _write_srt (subtitles : stream Subtitle) (srt_file : string)
  : string * outcome :=
  write_loop 0 (fst subtitles) (snd subtitles) srt_file.

(** *** [words_to_srt] *)

(** The defaults of the keyword parameters. *)
Definition default_split_on_pause_gt : T := num_of_int 1.
Definition default_split_on_length_gt : Z := 32.
Definition default_min_sub_duration : T := num_of_int 1.

Definition words_to_srt (words : list Word) (srt_file : string)
  : string * outcome :=
  let subtitles :=
    _words_to_subtitles words
      default_split_on_pause_gt default_split_on_length_gt in
  let subtitles := _adjust_duration subtitles default_min_sub_duration in
  _write_srt subtitles srt_file.

End Pipeline.

Arguments Word T : clear implicits.
Arguments Subtitle T : clear implicits.
Arguments seg_state T : clear implicits.

(** ** binary64 seconds

    Python's [float] is IEEE 754 binary64, which is Rocq's primitive
    [float].  [+], [-], [*], [/] and the comparisons are the primitive
    operations; [%], [//] and [int()] follow CPython's [float_rem],
    [_float_div_mod] and [float___trunc__], with C's [fmod] and [floor]
    computed exactly on the decoded mantissa and exponent. *)

Module PyFloat.

Definition of_Z (z : Z) : float :=
  SF2Prim (binary_normalize prec emax z 0 false).

Definition sign_bit (x : float) : bool :=
  match Prim2SF x with
  | S754_zero s | S754_infinity s | S754_finite s _ _ => s
  | S754_nan => false
  end.

(** [copysign(0.0, x)] *)
Definition copysign0 (x : float) : float :=
  if sign_bit x then PrimFloat.neg_zero else PrimFloat.zero.

(** C truth value of a double. *)
Definition nonzero (x : float) : bool := negb (PrimFloat.eqb x PrimFloat.zero).

(** C [fmod]: the exact remainder, with the sign of [x]. *)
Definition fmod (x y : float) : float :=
  match Prim2SF x, Prim2SF y with
  | S754_nan, _ | _, S754_nan => PrimFloat.nan
  | S754_infinity _, _ => PrimFloat.nan
  | _, S754_zero _ => PrimFloat.nan
  | S754_zero _, _ => x
  | S754_finite _ _ _, S754_infinity _ => x
  | S754_finite sx mx ex, S754_finite _ my ey =>
      let e := Z.min ex ey in
      let r := (Zpos mx * 2 ^ (ex - e)) mod (Zpos my * 2 ^ (ey - e)) in
      if r =? 0
      then (if sx then PrimFloat.neg_zero else PrimFloat.zero)
      else SF2Prim (binary_normalize prec emax (if sx then - r else r) e false)
  end.

(** C [floor]. *)
Definition floor (x : float) : float :=
  match Prim2SF x with
  | S754_finite s m e =>
      if 0 <=? e then x
      else
        let q := Zpos m / 2 ^ (- e) in
        if s
        then of_Z (- (if Zpos m mod 2 ^ (- e) =? 0 then q else q + 1))
        else of_Z q
  | _ => x
  end.

(** [v % w], [w] non-zero. *)
Definition py_mod (v w : float) : float :=
  let md := fmod v w in
  if nonzero md
  then if xorb (PrimFloat.ltb w PrimFloat.zero) (PrimFloat.ltb md PrimFloat.zero)
       then PrimFloat.add md w
       else md
  else copysign0 w.

(** [v // w], [w] non-zero. *)
Definition py_floordiv (v w : float) : float :=
  let md := fmod v w in
  let div := PrimFloat.div (PrimFloat.sub v md) w in
  let div :=
    if nonzero md
       && xorb (PrimFloat.ltb w PrimFloat.zero) (PrimFloat.ltb md PrimFloat.zero)
    then PrimFloat.sub div PrimFloat.one
    else div in
  if nonzero div
  then
    let floordiv := floor div in
    if PrimFloat.ltb (of_Z 1 / 2) (PrimFloat.sub div floordiv)
    then PrimFloat.add floordiv PrimFloat.one
    else floordiv
  else copysign0 (PrimFloat.div v w).

(** [int(x)]: truncation towards zero. *)
Definition py_int (x : float) : exn + Z :=
  match Prim2SF x with
  | S754_nan => inl ValueError
  | S754_infinity _ => inl OverflowError
  | S754_zero _ => inr 0
  | S754_finite s m e =>
      let a := if 0 <=? e then Zpos m * 2 ^ e else Zpos m / 2 ^ (- e) in
      inr (if s then - a else a)
  end.

(** Every value but [nan]. *)
Definition is_number (x : float) : bool :=
  match Prim2SF x with
  | S754_nan => false
  | S754_zero _ | S754_infinity _ | S754_finite _ _ _ => true
  end.

(** [nan], [inf] and [-inf]. *)
Definition not_finite (x : float) : bool :=
  match Prim2SF x with
  | S754_nan | S754_infinity _ => true
  | S754_zero _ | S754_finite _ _ _ => false
  end.

(** The decoded values that [not_finite] leaves: zeros and finite
    non-zero values. *)
Definition sf_finite (x : spec_float) : bool :=
  match x with
  | S754_zero _ | S754_finite _ _ _ => true
  | S754_infinity _ | S754_nan => false
  end.

(** A decoded finite value as a multiple of the smallest positive
    value of the format. *)
Definition scaled (prec emax : Z) (x : spec_float) : Z :=
  match x with
  | S754_finite s m e =>
      cond_Zopp s (Zpos m * 2 ^ (e - SpecFloat.emin prec emax))
  | _ => 0
  end.

#[export] Instance float_num : PyNum float := {
  num_add := PrimFloat.add;
  num_sub := PrimFloat.sub;
  num_mul := PrimFloat.mul;
  num_floordiv := py_floordiv;
  num_mod := py_mod;
  num_ge := fun a b => PrimFloat.leb b a;
  num_gt := fun a b => PrimFloat.ltb b a;
  num_le := PrimFloat.leb;
  num_int := py_int;
  num_of_int := of_Z
}.

End PyFloat.

(** ** Exact seconds *)

Module PyQ.

Definition py_floordiv (a b : Q) : Q := inject_Z (Qfloor (a / b)).

Definition py_mod (a b : Q) : Q := a - b * py_floordiv a b.

Definition py_int (a : Q) : exn + Z :=
  inr (if Qle_bool 0 a then Qfloor a else Qceiling a).

#[export] Instance Q_num : PyNum Q := {
  num_add := Qplus;
  num_sub := Qminus;
  num_mul := Qmult;
  num_floordiv := py_floordiv;
  num_mod := py_mod;
  num_ge := fun a b => Qle_bool b a;
  num_gt := fun a b => negb (Qle_bool a b);
  num_le := Qle_bool;
  num_int := py_int;
  num_of_int := inject_Z
}.

End PyQ.

Import PyFloat PyQ.

(** ** Properties of cue sequences *)

Section Properties.

Context {T : Type} {num : PyNum T}.

(** [end_time] of cue [a] is at most [start_time] of cue [b]. *)
Definition ends_before (a b : Subtitle T) : bool :=
  match cue_end a, cue_start b with
  | Some e, Some s => num_le e s
  | _, _ => false
  end.

(** Every cue ends before the one that follows it starts. *)
Fixpoint no_overlap (cues : list (Subtitle T)) : bool :=
  match cues with
  | a :: (b :: _) as rest => ends_before a b && no_overlap rest
  | _ => true
  end.

Definition starts_before (a b : Subtitle T) : bool :=
  match cue_start a, cue_start b with
  | Some s, Some s' => num_le s s'
  | _, _ => false
  end.

Fixpoint starts_sorted (cues : list (Subtitle T)) : bool :=
  match cues with
  | a :: (b :: _) as rest => starts_before a b && starts_sorted rest
  | _ => true
  end.

(** A time-ordered cue sequence: every word ends no earlier than it
    starts, and the cues' start times do not decrease. *)
Definition time_ordered (cues : list (Subtitle T)) : bool :=
  forallb (forallb (fun w => num_le (start_time w) (end_time w))) cues
  && starts_sorted cues.

(** The emitted cue [b] ends no earlier than the cue [a] it was made from. *)
Definition end_not_decreased (a b : Subtitle T) : bool :=
  match cue_end a, cue_end b with
  | Some e, Some e' => num_le e e'
  | _, _ => false
  end.

(** Position by position, no emitted cue ends earlier than the input
    cue at that position. *)
Definition ends_never_decrease (cues out : list (Subtitle T)) : bool :=
  forallb (fun p => end_not_decreased (fst p) (snd p)) (combine cues out).

(** The test of lines 126-127: the cue lasts [min_sub_duration] or
    more. *)
Definition lasts (min_sub_duration : T) (c : Subtitle T) : bool :=
  match cue_end c, cue_start c with
  | Some e, Some s => num_ge (num_sub e s) min_sub_duration
  | _, _ => false
  end.

(** The emitted cue [b] is the input cue [a], or [a] with a new
    [end_time] on its last word. *)
Definition same_but_end (a b : Subtitle T) : Prop :=
  b = a \/ exists t : T, b = update_last (fun w => set_end_time w t) a.

(** The first test of the break decision (line 83). *)
Definition length_test (split_on_length_gt : Z) (st : seg_state T)
    (w : Word T) : bool :=
  len_line st + len (word w) >? split_on_length_gt.

(** The break condition in the words of the specification: appending
    the word plus a trailing space would make the line longer than the
    maximum, or the word ends a sentence. *)
Definition spec_line_break (max_line_length : Z) (st : seg_state T)
    (w : Word T) : bool :=
  (len_line st + len (word w ++ SPACE) >? max_line_length)
  || endswith_punct (word w).

(** A word of the input and the record emitted for it: same times,
    same text up to the suffix the segmenter appends. *)
Definition emitted_as (w w' : Word T) : Prop :=
  start_time w' = start_time w /\ end_time w' = end_time w /\
  (word w' = word w \/ word w' = (word w ++ SPACE)%string \/
   word w' = (word w ++ CRLF)%string \/
   word w' = ((word w ++ SPACE) ++ CRLF)%string).

(** Line feeds carried by the words of a cue. *)
Fixpoint cue_lf (c : Subtitle T) : Z :=
  match c with
  | [] => 0
  | w :: r => count_lf (word w) + cue_lf r
  end.

(** The loop invariant: [line_index] is 0 or 1, it counts the markers
    in the buffer, and the buffer is not empty on the second line. *)
Definition seg_inv (st : seg_state T) : Prop :=
  (line_index st = 0 \/ line_index st = 1) /\
  cue_lf (subtitle st) = line_index st /\
  (line_index st = 1 -> subtitle st <> []).

Definition cue_ok (c : Subtitle T) : Prop :=
  c <> [] /\ count_lf (sentence c) <= allowed_lines - 1.

(** A buffered word as [place_word] leaves it. *)
Definition spaced (w w' : Word T) : Prop :=
  w' = set_word w (word w ++ SPACE).

(** The buffer holds the words [buf] read since the last cue was
    yielded; on the first line of a cue each is as [place_word] left it. *)
Definition seg_words_inv (buf : list (Word T)) (st : seg_state T) : Prop :=
  Forall2 emitted_as buf (subtitle st) /\
  (line_index st = 0 \/ line_index st = 1) /\
  (line_index st = 0 -> Forall2 spaced buf (subtitle st)).

(** Number of carriage returns in a text. *)
Fixpoint count_cr (s : string) : Z :=
  match s with
  | EmptyString => 0
  | String c r => (if Ascii.eqb c "013" then 1 else 0) + count_cr r
  end.

(** Widths of the physical lines of a text: the numbers of characters
    between the markers ["\r\n"].  [cur] is the width of the line
    being read. *)
Fixpoint line_widths (s : string) (cur : Z) : list Z :=
  match s with
  | EmptyString => [cur]
  | String c r =>
      match r with
      | EmptyString => [cur + 1]
      | String c' r' =>
          if Ascii.eqb c "013" && Ascii.eqb c' "010"
          then cur :: line_widths r' 0
          else line_widths r (cur + 1)
      end
  end.

(** The buffer is empty only at the start of a line, and the line
    length is never negative. *)
Definition seg_fit_inv (st : seg_state T) : Prop :=
  0 <= len_line st /\ (subtitle st = [] -> len_line st = 0).

(** [line_index] is 0 or 1 and the buffer is not empty on the second
    line. *)
Definition seg_lines_inv (st : seg_state T) : Prop :=
  (line_index st = 0 \/ line_index st = 1) /\
  (line_index st = 1 -> subtitle st <> []).

(** The text buffered so far is made of closed lines, none wider than
    [L + 1], followed by the current line, [len_line] wide: whatever
    text [b] comes next continues that line. *)
Definition seg_width_inv (L : Z) (st : seg_state T) : Prop :=
  len_line st <= L + 1 /\
  exists closed : list Z,
    Forall (fun n => n <= L + 1) closed /\
    forall b : string,
      line_widths (sentence (subtitle st) ++ b) 0
      = closed ++ line_widths b (len_line st).

(** No physical line of the cue is wider than [L + 1]. *)
Definition narrow (L : Z) (c : Subtitle T) : Prop :=
  Forall (fun n => n <= L + 1) (line_widths (sentence c) 0).

(** Each word ends no later than the next one starts. *)
Fixpoint words_chained (ws : list (Word T)) : bool :=
  match ws with
  | a :: (b :: _) as rest =>
      num_le (end_time a) (start_time b) && words_chained rest
  | _ => true
  end.

End Properties.

(** ** Cues whose times are finite binary64 values *)

Definition finite_word (w : Word float) : bool :=
  negb (PyFloat.not_finite (start_time w))
  && negb (PyFloat.not_finite (end_time w)).

Definition finite_times (cues : list (Subtitle float)) : bool :=
  forallb (forallb finite_word) cues.

(** ** Sample inputs *)

Module Samples.

Definition W (s : string) (t0 t1 : float) : Word float := mkWord s t0 t1.

(** The wrap/punctuation example of the specification. *)
Definition fox : list (Word float) :=
  [W "the" 0.0 0.3; W "quick" 0.3 0.6; W "brown" 0.6 0.9; W "fox." 0.9 1.3].

Definition hi : list (Word float) := [W "hi" 0.0 0.5].

(** 33, 32 and 30 characters. *)
Definition a33 : string := "aaaaaaaaaaaaaaaaaaaaaaaaaaaaaaaaa".
Definition a32 : string := "aaaaaaaaaaaaaaaaaaaaaaaaaaaaaaaa".
Definition a30 : string := "aaaaaaaaaaaaaaaaaaaaaaaaaaaaaa".

(** A long cue overlapping its successor. *)
Definition long_overlap : list (Subtitle float) :=
  [[W "a" 0.0 2.0]; [W "b" 1.0 3.0]].

(** A short cue overlapping its successor. *)
Definition short_overlap : list (Subtitle float) :=
  [[W "a" 0.0 0.75]; [W "b" 0.5 2.0]].

(** A fresh second line: "Hi." closed the first line of the cue. *)
Definition second_line : seg_state float :=
  mkSeg [W ("Hi." ++ CRLF) 0.0 1.0] 0 1.

Definition w33 : Word float := W a33 1.0 2.0.
Definition w32 : Word float := W a32 0.0 1.0.
Definition w30 : Word float := W a30 0.0 1.0.
Definition w_end : Word float := W "end." 1.0 2.0.
Definition w_ok : Word float := W "ok" 1.0 2.0.

(** Words that segment into two one-word cues: a sentence closes the
    first line, then a word too long for a line forces the cue out. *)
Definition hi_then_long : list (Word float) :=
  [W "Hi." 0.0 2.0; W a33 1.0 3.0].

Definition short_hi_then_long : list (Word float) :=
  [W "Hi." 0.0 0.75; W a33 0.5 2.0].

Definition QW (s : string) (t0 t1 : Q) : Word Q := mkWord s t0 t1.

(** A short cue followed by a near cue and a far one. *)
Definition spaced : list (Subtitle Q) :=
  [[QW "a" 0 (1#5)]; [QW "b" (1#2) (7#10)]; [QW "c" 5 7]].

(** Two sentences, which fill a cue, and a word left for a second cue. *)
Definition three : list (Word float) :=
  [W "a." 0.0 1.0; W "b." 1.0 2.0; W "c" 2.0 3.0].

End Samples.

(** * Theorems *)

Section Adjuster.

Context {T : Type} {num : PyNum T}.

(** C1 (the code departs from the claim).  A cue sequence of exactly
    one cue: the loop body never runs, [this_sub] is still [None] at
    line 141, and nothing is emitted; the only cue is lost. *)
Theorem adjust_duration_sole_cue_dropped :
  forall (c : Subtitle T) (min_sub_duration : T),
    _adjust_duration ([c], Done) min_sub_duration = ([], Done).
Proof. intros c m. reflexivity. Qed.

(** C2 (the code departs from the claim).  On the empty word stream
    the segmenter yields nothing, [next(subtitles)] at line 123 raises
    [StopIteration] inside the generator, and [words_to_srt] ends with
    [RuntimeError]; nothing is written. *)
Theorem words_to_srt_empty_raises :
  forall srt_file : string,
    words_to_srt (@nil (Word T)) srt_file = (srt_file, Raised RuntimeError).
Proof. intros srt_file. reflexivity. Qed.

Lemma adjust_body_same (m : T) (prev next y : Subtitle T) :
  adjust_body m prev next = inr y -> same_but_end prev y.
Proof.
  unfold adjust_body, same_but_end.
  destruct (cue_end prev) as [e|]; [|discriminate].
  destruct (cue_start prev) as [s|]; [|discriminate].
  destruct (num_ge (num_sub e s) m); [intros [= <-]; now left|].
  destruct (cue_start next) as [s'|]; [|discriminate].
  destruct (num_gt (num_add s m) s'); intros [= <-]; right; eauto.
Qed.

(** The cues emitted are the input cues, position by position and
    from the first one on, each at most with a new [end_time]. *)
Lemma adjust_loop_same (m : T) (up : outcome) (rest : list (Subtitle T)) :
  forall (prev : Subtitle T) (this : option (Subtitle T)),
    (this = None \/ this = Some prev) ->
    exists k : nat,
      Forall2 same_but_end (firstn k (prev :: rest))
        (fst (adjust_loop m prev this rest up)).
Proof.
  induction rest as [|next rest IH]; intros prev this Hthis; simpl.
  - destruct up; [|exists 0%nat; constructor].
    destruct Hthis as [-> | ->]; [exists 0%nat; constructor|].
    destruct prev as [|w r]; [exists 0%nat; constructor|].
    exists 1%nat. constructor; [now left|constructor].
  - destruct (adjust_body m prev next) as [e|y] eqn:Hbody;
      [exists 0%nat; constructor|].
    destruct (IH next (Some next) (or_intror eq_refl)) as [k Hk].
    destruct (adjust_loop m next (Some next) rest up) as [out o].
    exists (S k). simpl in Hk |- *.
    constructor; [now apply (adjust_body_same m prev next)|exact Hk].
Qed.

(** X18.  The cues [_adjust_duration] emits are the first cues it
    received, in order and one for one; each is the input cue itself
    or the input cue with a new [end_time] on its last word: no text,
    no start time and no other end time is ever changed. *)
Lemma adjust_duration_same_cues :
  forall (cues : list (Subtitle T)) (up : outcome) (min_sub_duration : T),
  exists k : nat,
    Forall2 same_but_end (firstn k cues)
      (fst (_adjust_duration (cues, up) min_sub_duration)).
Proof.
  intros cues up m. unfold _adjust_duration.
  destruct cues as [|first rest].
  - exists 0%nat. destruct up; constructor.
  - apply adjust_loop_same. now left.
Qed.

End Adjuster.

(** C10.  [split_on_pause_gt] is never read: the cues do not depend on it. *)
Theorem words_to_subtitles_ignores_pause :
  forall (T : Type) (num : PyNum T) (words : list (Word T))
         (p1 p2 : T) (split_on_length_gt : Z),
    _words_to_subtitles words p1 split_on_length_gt
    = _words_to_subtitles words p2 split_on_length_gt.
Proof. intros. reflexivity. Qed.

(** ** The duration adjuster: cue starts and ends *)

Section Timing.

Context {T : Type} {num : PyNum T}.

Lemma cue_start_update_last (f : Word T -> Word T) (sub : Subtitle T) :
  (forall w, start_time (f w) = start_time w) ->
  cue_start (update_last f sub) = cue_start sub.
Proof.
  intros Hf. destruct sub as [|w [|w' r]]; simpl; trivial.
  unfold cue_start. simpl. now rewrite Hf.
Qed.

Lemma cue_end_update_last (f : Word T -> Word T) (sub : Subtitle T) :
  cue_end (update_last f sub)
  = option_map (fun w => end_time (f w)) (last_error sub).
Proof.
  unfold cue_end. destruct sub as [|w r]; [reflexivity|].
  revert w. induction r as [|w' r IH]; intros w; [reflexivity|].
  specialize (IH w'). simpl in IH |- *.
  destruct r as [|w'' r']; [reflexivity|exact IH].
Qed.

Lemma no_overlap_cons (a : Subtitle T) (l : list (Subtitle T)) :
  no_overlap (a :: l)
  = match l with
    | [] => true
    | b :: _ => ends_before a b && no_overlap l
    end.
Proof. destruct l; reflexivity. Qed.

End Timing.

(** C3 as stated fails.  Two time-ordered cues, 0.0-2.0 and 1.0-3.0:
    the first lasts at least [min_sub_duration], so it is passed
    through unchanged and still ends after the second one starts.
    The segmenter produces such cues from the words "Hi." (0.0-2.0)
    and a 33-character word (1.0-3.0). *)
Lemma adjust_duration_long_overlap :
  (time_ordered Samples.long_overlap = true /\
   _adjust_duration (Samples.long_overlap, Done) default_min_sub_duration
   = (Samples.long_overlap, Done) /\
   no_overlap
     (fst (_adjust_duration (Samples.long_overlap, Done)
             default_min_sub_duration)) = false)
  /\
  (time_ordered
     (fst (_words_to_subtitles Samples.hi_then_long
             default_split_on_pause_gt 32)) = true /\
   no_overlap
     (fst (_adjust_duration
             (_words_to_subtitles Samples.hi_then_long
                default_split_on_pause_gt 32)
             default_min_sub_duration)) = false).
Proof. repeat split; vm_compute; reflexivity. Qed.

(** C4 as stated fails.  Two time-ordered cues, 0.0-0.75 and 0.5-2.0:
    the first is shorter than [min_sub_duration] and the second starts
    before [0.0 + 1.0], so the first cue's end is set to 0.5, earlier
    than its original 0.75.  The segmenter produces such cues from the
    words "Hi." (0.0-0.75) and a 33-character word (0.5-2.0). *)
Lemma adjust_duration_short_overlap :
  (time_ordered Samples.short_overlap = true /\
   option_map cue_end
     (hd_error (fst (_adjust_duration (Samples.short_overlap, Done)
                       default_min_sub_duration)))
   = Some (Some 0.5%float) /\
   ends_never_decrease Samples.short_overlap
     (fst (_adjust_duration (Samples.short_overlap, Done)
             default_min_sub_duration)) = false)
  /\
  (time_ordered
     (fst (_words_to_subtitles Samples.short_hi_then_long
             default_split_on_pause_gt 32)) = true /\
   ends_never_decrease
     (fst (_words_to_subtitles Samples.short_hi_then_long
             default_split_on_pause_gt 32))
     (fst (_adjust_duration
             (_words_to_subtitles Samples.short_hi_then_long
                default_split_on_pause_gt 32)
             default_min_sub_duration)) = false).
Proof. repeat split; vm_compute; reflexivity. Qed.

(** ** The segmenter: the break decision *)

Section BreakDecision.

Context {T : Type} {num : PyNum T}.

Lemma set_word_same (w : Word T) : set_word w (word w) = w.
Proof. now destruct w. Qed.

Lemma append_empty_r (s : string) : (s ++ EmptyString)%string = s.
Proof. induction s as [|c s IH]; simpl; [reflexivity|now rewrite IH]. Qed.

Lemma last_error_app (A : Type) (l : list A) (x : A) :
  last_error (l ++ [x]) = Some x.
Proof.
  induction l as [|y l IH]; [reflexivity|].
  simpl. destruct (l ++ [x]) eqn:E; [now destruct l|exact IH].
Qed.

Lemma update_last_app (A : Type) (f : A -> A) (l : list A) (x : A) :
  update_last f (l ++ [x]) = l ++ [f x].
Proof.
  induction l as [|y l IH]; [reflexivity|].
  simpl. destruct (l ++ [x]) eqn:E; [now destruct l|now rewrite IH].
Qed.

Lemma bind_eta (A B : Type) (x : exn + A * B) :
  (r <- x ;; inr (fst r, snd r)) = x.
Proof. now destruct x as [e|[a b]]. Qed.

(** The loop body, by the outcome of the two tests of lines 83 and 85. *)
Lemma seg_body_cases (L : Z) (st : seg_state T) (w : Word T) :
  seg_body L st w
  = if length_test L st w
    then r <- apply_break true (subtitle st) st ;;
         inr (fst r, place_word (Some w) (snd r))
    else if endswith_punct (word w)
         then apply_break true (subtitle st ++ [w]) st
         else inr ([], place_word (Some w) st).
Proof.
  unfold seg_body, decide_break, length_test.
  destruct (len_line st + len (word w) >? L); [reflexivity|].
  destruct (endswith_punct (word w)).
  - apply bind_eta.
  - now destruct st.
Qed.

(** C8 (amended).  A break is decided exactly when the line length so
    far plus the length of the word, without a trailing space, exceeds
    [split_on_length_gt], or the word ends in [.], [?] or [!].  The
    length test comes first: when it fires the break is applied to the
    buffer without the word, and the word, with its trailing space, is
    placed after the break, whether or not it ends a sentence.  Only a
    sentence-ending word that passes the length test joins the buffer
    before the break is applied. *)
Theorem break_decision :
  forall (split_on_length_gt : Z) (st : seg_state T) (w : Word T),
    fst (fst (decide_break split_on_length_gt st w))
    = length_test split_on_length_gt st w || endswith_punct (word w)
    /\
    seg_body split_on_length_gt st w
    = if length_test split_on_length_gt st w
      then r <- apply_break true (subtitle st) st ;;
           inr (fst r, place_word (Some w) (snd r))
      else if endswith_punct (word w)
           then apply_break true (subtitle st ++ [w]) st
           else inr ([], place_word (Some w) st).
Proof.
  intros L st w. split; [|apply seg_body_cases].
  unfold decide_break, length_test.
  destruct (len_line st + len (word w) >? L); [reflexivity|].
  now destruct (endswith_punct (word w)).
Qed.

(** What does hold on a fresh line ([len_line] zero): a word whose own
    length does not exceed [split_on_length_gt] passes the length test
    and is placed without error.  The test counts the incoming word
    too, so a longer word does trigger a length break; when the fresh
    line is the second line of a cue, the buffered cue is emitted and
    the word, without error, becomes the first word of the next cue. *)
Theorem fresh_line_first_word :
  forall (split_on_length_gt : Z) (st : seg_state T) (w : Word T),
    len_line st = 0 ->
    (len (word w) <= split_on_length_gt ->
     length_test split_on_length_gt st w = false /\
     exists ys st' sfx,
       seg_body split_on_length_gt st w = inr (ys, st') /\
       last_error (List.concat ys ++ subtitle st')
       = Some (set_word w (word w ++ sfx)))
    /\
    (split_on_length_gt < len (word w) ->
     line_index st = 1 ->
     length_test split_on_length_gt st w = true /\
     seg_body split_on_length_gt st w
     = inr ([subtitle st],
            mkSeg [set_word w (word w ++ SPACE)] (len (word w ++ SPACE)) 0)).
Proof.
  intros L st w Hfresh.
  pose proof (seg_body_cases L st w) as Hbody. split.
  - intros Hfit.
    assert (Htest : length_test L st w = false).
    { unfold length_test. rewrite Hfresh, Z.gtb_ltb. apply Z.ltb_ge. lia. }
    split; [exact Htest|]. rewrite Hbody, Htest.
    destruct (endswith_punct (word w)).
    + unfold apply_break.
      destruct (line_index st + 1 =? allowed_lines).
      * exists [subtitle st ++ [w]], (mkSeg [] 0 0), EmptyString.
        split; [reflexivity|]. simpl.
        rewrite !app_nil_r, last_error_app, append_empty_r.
        now rewrite set_word_same.
      * destruct (subtitle st ++ [w]) eqn:E; [now destruct (subtitle st)|].
        rewrite <- E, update_last_app.
        eexists [], _, CRLF. split; [reflexivity|].
        simpl. apply last_error_app.
    + eexists [], _, SPACE. split; [reflexivity|].
      simpl. apply last_error_app.
  - intros Hlong Hsecond.
    assert (Htest : length_test L st w = true).
    { unfold length_test. rewrite Hfresh, Z.gtb_ltb. apply Z.ltb_lt. lia. }
    split; [exact Htest|]. rewrite Hbody, Htest.
    unfold apply_break. rewrite Hsecond. reflexivity.
Qed.

End BreakDecision.

Lemma fresh_line_first_word_witness :
  len_line Samples.second_line = 0 /\
  (32 < len (word Samples.w33) /\ line_index Samples.second_line = 1 /\
   seg_body 32 Samples.second_line Samples.w33
   = inr ([subtitle Samples.second_line],
          mkSeg [set_word Samples.w33 (word Samples.w33 ++ SPACE)]
                (len (word Samples.w33 ++ SPACE)) 0))
  /\
  (len (word Samples.w_ok) <= 32 /\
   length_test 32 Samples.second_line Samples.w_ok = false).
Proof.
  split; [reflexivity|]. split.
  - do 2 (split; [reflexivity|]).
    apply (proj2 (fresh_line_first_word 32 Samples.second_line Samples.w33
                    eq_refl)); reflexivity.
  - split; [discriminate|].
    apply (proj1 (fresh_line_first_word 32 Samples.second_line Samples.w_ok
                    eq_refl)); discriminate.
Defined.

(** C7 (the code departs from the claim).  A 33-character word as
    the very first word, on a fresh line with an empty line buffer:
    the length test of line 83 fires, and with the buffer empty
    [subtitle[-1]] at line 100 raises [IndexError].  The word is not
    placed; the generator ends with the exception and yields nothing. *)
Lemma first_word_too_long_raises :
  len_line (@seg_init float) = 0 /\ subtitle (@seg_init float) = [] /\
  length_test 32 seg_init Samples.w33 = true /\
  seg_body 32 seg_init Samples.w33 = inl IndexError /\
  _words_to_subtitles [Samples.w33] default_split_on_pause_gt 32
  = ([], Raised IndexError).
Proof. repeat split. Qed.

(** C8 as stated fails, in both parts.  A 32-character word on an
    empty line: with its trailing space the line would be 33 long, yet
    no break is decided.  A sentence-ending word that fails the length
    test: the break is applied first, the marker goes to the word before
    it, and the word opens the next line with a trailing space. *)
Lemma line_break_as_stated_fails :
  (spec_line_break 32 seg_init Samples.w32 = true /\
   fst (fst (decide_break 32 seg_init Samples.w32)) = false /\
   seg_body 32 seg_init Samples.w32
   = inr ([], mkSeg [Samples.W (Samples.a32 ++ SPACE) 0 1] 33 0))
  /\
  _words_to_subtitles [Samples.w30; Samples.w_end]
    default_split_on_pause_gt 32
  = ([[Samples.W ((Samples.a30 ++ SPACE) ++ CRLF) 0 1;
       Samples.W ("end." ++ SPACE) 1 2]], Done).
Proof. repeat split. Qed.

(** C6 (amended).  On the four words of the example, with
    [split_on_length_gt = 32], the segmenter produces exactly one cue;
    [fox.] ends a sentence, so it gets the line-break marker and no
    trailing space: the caption text is "the quick brown fox.\r\n",
    and the timecode line is [00:00:00,000 --> 00:00:01,300]. *)
Theorem fox_example :
  exists c : Subtitle float,
    _words_to_subtitles Samples.fox default_split_on_pause_gt 32 = ([c], Done)
    /\ sentence c = ("the quick brown fox." ++ CRLF)%string
    /\ timecode c = inr "00:00:00,000 --> 00:00:01,300"%string
    /\ _write_srt ([c], Done) EmptyString
       = (("1" ++ LF ++ "00:00:00,000 --> 00:00:01,300" ++ LF
           ++ "the quick brown fox." ++ CRLF ++ LF ++ LF)%string, Done).
Proof. eexists. repeat split; vm_compute; reflexivity. Qed.

(** C6 as stated fails.  The caption text of the only cue is not
    "the quick brown fox. "; and through the whole of [words_to_srt]
    that only cue is lost in [_adjust_duration], so nothing is
    written at all. *)
Lemma fox_caption_as_stated_fails :
  map sentence
    (fst (_words_to_subtitles Samples.fox default_split_on_pause_gt 32))
  <> ["the quick brown fox. "%string]
  /\ words_to_srt Samples.fox EmptyString = (EmptyString, Done).
Proof. split; [vm_compute; discriminate|vm_compute; reflexivity]. Qed.

(** C5 (the code departs from the claim).  One word, "hi": the
    segmenter emits one cue holding it, [_adjust_duration] drops that
    cue, and nothing is written: the word is lost. *)
Theorem words_to_srt_loses_single_cue :
  map sentence
    (fst (_words_to_subtitles Samples.hi default_split_on_pause_gt 32))
  = ["hi "%string]
  /\ words_to_srt Samples.hi EmptyString = (EmptyString, Done).
Proof. split; vm_compute; reflexivity. Qed.

(** ** The segmenter: lines per cue *)

Section LinesPerCue.

Context {T : Type} {num : PyNum T}.

Lemma count_lf_app (a b : string) :
  count_lf (a ++ b) = count_lf a + count_lf b.
Proof. induction a as [|c a IH]; simpl; [reflexivity|]. rewrite IH. lia. Qed.

Lemma count_lf_sentence (c : Subtitle T) : count_lf (sentence c) = cue_lf c.
Proof.
  unfold sentence. induction c as [|w r IH]; [reflexivity|].
  simpl. destruct (map word r) as [|x xs] eqn:E.
  - destruct r; [simpl; lia|discriminate].
  - rewrite count_lf_app. simpl (count_lf (_ ++ _)). rewrite IH. reflexivity.
Qed.

Lemma cue_lf_app (a b : Subtitle T) : cue_lf (a ++ b) = cue_lf a + cue_lf b.
Proof. induction a as [|w a IH]; simpl; [reflexivity|]. rewrite IH. lia. Qed.

Lemma cue_lf_mark_last (c : Subtitle T) :
  c <> [] ->
  cue_lf (update_last (fun l => set_word l (word l ++ CRLF)) c) = cue_lf c + 1.
Proof.
  induction c as [|w r IH]; [congruence|]. intros _.
  destruct r as [|w' r'].
  - simpl. rewrite count_lf_app. simpl. lia.
  - change (count_lf (word w)
            + cue_lf (update_last (fun l => set_word l (word l ++ CRLF))
                        (w' :: r'))
            = count_lf (word w) + cue_lf (w' :: r') + 1).
    rewrite IH by congruence. lia.
Qed.

Lemma update_last_nonempty (A : Type) (f : A -> A) (l : list A) :
  l <> [] -> update_last f l <> [].
Proof. destruct l as [|x [|y r]]; simpl; congruence. Qed.

Lemma seg_inv_init : seg_inv (@seg_init T).
Proof. unfold seg_inv. simpl. intuition lia. Qed.

Lemma seg_inv_place (st : seg_state T) (w : Word T) :
  count_lf (word w) = 0 -> seg_inv st -> seg_inv (place_word (Some w) st).
Proof.
  intros Hw (Hli & Hlf & Hne). unfold seg_inv. simpl.
  rewrite cue_lf_app. simpl. rewrite count_lf_app, Hw. simpl.
  repeat split; [exact Hli|lia|].
  intros _. now destruct (subtitle st).
Qed.

Lemma apply_break_inv (sub : Subtitle T) (st : seg_state T)
    (ys : list (Subtitle T)) (st' : seg_state T) :
  (line_index st = 0 \/ line_index st = 1) ->
  cue_lf sub = line_index st ->
  (line_index st = 1 -> sub <> []) ->
  apply_break true sub st = inr (ys, st') ->
  seg_inv st' /\ Forall cue_ok ys.
Proof.
  intros Hli Hlf Hne. unfold apply_break.
  destruct (line_index st + 1 =? allowed_lines) eqn:E.
  - intros [= <- <-]. split; [apply seg_inv_init|].
    apply Z.eqb_eq in E. unfold allowed_lines in E.
    constructor; [|constructor]. split; [apply Hne; lia|].
    rewrite count_lf_sentence. unfold allowed_lines. lia.
  - apply Z.eqb_neq in E. unfold allowed_lines in E.
    destruct sub as [|x r] eqn:Es; [discriminate|]. rewrite <- Es in *.
    assert (Hsub : sub <> []) by (rewrite Es; congruence).
    intros [= <- <-]. split; [|constructor].
    unfold seg_inv. simpl. rewrite cue_lf_mark_last by exact Hsub.
    repeat split; [lia|lia|].
    intros _. now apply update_last_nonempty.
Qed.

Lemma seg_body_inv (L : Z) (st : seg_state T) (w : Word T)
    (ys : list (Subtitle T)) (st' : seg_state T) :
  count_lf (word w) = 0 ->
  seg_inv st ->
  seg_body L st w = inr (ys, st') ->
  seg_inv st' /\ Forall cue_ok ys.
Proof.
  intros Hw Hinv. rewrite seg_body_cases.
  pose proof Hinv as (Hli & Hlf & Hne).
  destruct (length_test L st w).
  - destruct (apply_break true (subtitle st) st) as [e|[ys0 st0]] eqn:E;
      [discriminate|].
    intros [= <- <-].
    destruct (apply_break_inv _ _ _ _ Hli Hlf Hne E) as [Hinv0 Hys].
    split; [now apply seg_inv_place|exact Hys].
  - destruct (endswith_punct (word w)).
    + apply apply_break_inv; trivial.
      * rewrite cue_lf_app. simpl. lia.
      * intros _. now destruct (subtitle st).
    + intros [= <- <-]. split; [now apply seg_inv_place|constructor].
Qed.

Lemma seg_loop_inv (L : Z) (words : list (Word T)) :
  forall st : seg_state T,
    Forall (fun w => count_lf (word w) = 0) words ->
    seg_inv st ->
    Forall cue_ok (fst (seg_loop L st words)).
Proof.
  induction words as [|w rest IH]; intros st Hws Hinv; simpl.
  - destruct (subtitle st) as [|x r] eqn:E; simpl; [constructor|].
    constructor; [|constructor]. rewrite <- E.
    destruct Hinv as (Hli & Hlf & _).
    split; [congruence|]. rewrite count_lf_sentence. unfold allowed_lines. lia.
  - inversion Hws as [|? ? Hw Hrest]; subst.
    destruct (seg_body L st w) as [e|[ys st']] eqn:E; [constructor|].
    destruct (seg_body_inv _ _ _ _ _ Hw Hinv E) as [Hinv' Hys].
    specialize (IH st' Hrest Hinv').
    destruct (seg_loop L st' rest) as [out o]. simpl in *.
    apply Forall_app. now split.
Qed.

(** C9.  When no word text holds a line feed, every cue emitted by
    [_words_to_subtitles] is non-empty and its text holds at most
    [allowed_lines - 1] line feeds: it spans at most [allowed_lines]
    (2) physical lines.  This covers the cues emitted before an
    exception as well. *)
Theorem words_to_subtitles_cues_ok :
  forall (words : list (Word T)) (split_on_pause_gt : T)
         (split_on_length_gt : Z),
    Forall (fun w => count_lf (word w) = 0) words ->
    Forall (fun c => c <> [] /\ count_lf (sentence c) <= allowed_lines - 1)
      (fst (_words_to_subtitles words split_on_pause_gt split_on_length_gt)).
Proof.
  intros words p L Hws. unfold _words_to_subtitles.
  apply (seg_loop_inv L words seg_init Hws seg_inv_init).
Qed.

End LinesPerCue.

Lemma words_to_subtitles_cues_ok_witness :
  Forall (fun w => count_lf (word w) = 0) Samples.fox /\
  Forall (fun c => c <> [] /\ count_lf (sentence c) <= allowed_lines - 1)
    (fst (_words_to_subtitles Samples.fox default_split_on_pause_gt 32)).
Proof.
  assert (H : Forall (fun w => count_lf (word w) = 0) Samples.fox)
    by (repeat constructor).
  split; [exact H|].
  exact (words_to_subtitles_cues_ok Samples.fox default_split_on_pause_gt 32 H).
Defined.

(** ** The segmenter keeps every word *)

Section WordsKept.

Context {T : Type} {num : PyNum T}.

Lemma emitted_as_spaced (w : Word T) :
  emitted_as w (set_word w (word w ++ SPACE)).
Proof. unfold emitted_as. simpl. auto 10. Qed.

Lemma emitted_as_refl (w : Word T) : emitted_as w w.
Proof. unfold emitted_as. auto. Qed.

Lemma spaced_emitted (buf sub : list (Word T)) :
  Forall2 spaced buf sub -> Forall2 emitted_as buf sub.
Proof.
  induction 1 as [|w w' buf sub Hw _ IH]; constructor; trivial.
  unfold spaced in Hw. subst w'. apply emitted_as_spaced.
Qed.

Lemma spaced_marked (buf sub : list (Word T)) :
  Forall2 spaced buf sub ->
  Forall2 emitted_as buf
    (update_last (fun l => set_word l (word l ++ CRLF)) sub).
Proof.
  induction 1 as [|w w' buf sub Hw Hrest IH]; [constructor|].
  unfold spaced in Hw. subst w'.
  destruct sub as [|x r].
  - inversion Hrest; subst. constructor; [|constructor].
    unfold emitted_as. simpl. auto 10.
  - change (Forall2 emitted_as (w :: buf)
              (set_word w (word w ++ SPACE)
               :: update_last (fun l => set_word l (word l ++ CRLF)) (x :: r))).
    constructor; [apply emitted_as_spaced|exact IH].
Qed.

Lemma seg_words_place (buf : list (Word T)) (st : seg_state T) (w : Word T) :
  seg_words_inv buf st -> seg_words_inv (buf ++ [w]) (place_word (Some w) st).
Proof.
  intros (Hem & Hli & Hsp). unfold seg_words_inv. simpl.
  split; [|split; [exact Hli|]].
  - apply Forall2_app; [exact Hem|].
    constructor; [apply emitted_as_spaced|constructor].
  - intros H0. apply Forall2_app; [now apply Hsp|].
    constructor; [reflexivity|constructor].
Qed.

Lemma seg_words_init : seg_words_inv [] (@seg_init T).
Proof.
  unfold seg_words_inv. simpl.
  split; [constructor|split; [now left|intros _; constructor]].
Qed.

(** One iteration: the words seen so far are those of the cues yielded
    followed by those still buffered. *)
Lemma seg_body_words (L : Z) (st : seg_state T) (w : Word T)
    (buf : list (Word T)) (ys : list (Subtitle T)) (st' : seg_state T) :
  seg_words_inv buf st ->
  seg_body L st w = inr (ys, st') ->
  exists pre buf',
    buf ++ [w] = pre ++ buf' /\
    Forall2 emitted_as pre (List.concat ys) /\
    seg_words_inv buf' st'.
Proof.
  intros Hinv. rewrite seg_body_cases.
  pose proof Hinv as (Hem & Hli & Hsp).
  destruct (length_test L st w); [|destruct (endswith_punct (word w))];
    unfold apply_break.
  - destruct (line_index st + 1 =? allowed_lines) eqn:E.
    + intros [= <- <-]. exists buf, [w]. simpl. rewrite app_nil_r.
      split; [reflexivity|split; [exact Hem|]].
      apply (seg_words_place [] seg_init w seg_words_init).
    + apply Z.eqb_neq in E. unfold allowed_lines in E.
      assert (H0 : line_index st = 0) by lia.
      destruct (subtitle st) as [|x r] eqn:Es; [discriminate|].
      rewrite <- Es in Hem, Hsp |- *. intros [= <- <-].
      exists [], (buf ++ [w]).
      split; [reflexivity|split; [constructor|]].
      apply (seg_words_place buf (mkSeg _ 0 (line_index st + 1)) w).
      unfold seg_words_inv. simpl.
      split; [apply spaced_marked, Hsp, H0|split; lia].
  - assert (Hall : Forall2 emitted_as (buf ++ [w]) (subtitle st ++ [w])).
    { apply Forall2_app; [exact Hem|].
      constructor; [apply emitted_as_refl|constructor]. }
    destruct (line_index st + 1 =? allowed_lines) eqn:E.
    + intros [= <- <-]. exists (buf ++ [w]), []. simpl.
      rewrite !app_nil_r.
      split; [reflexivity|split; [exact Hall|apply seg_words_init]].
    + apply Z.eqb_neq in E. unfold allowed_lines in E.
      assert (H0 : line_index st = 0) by lia.
      destruct (subtitle st ++ [w]) as [|x r] eqn:Es;
        [now destruct (subtitle st)|].
      rewrite <- Es, update_last_app. intros [= <- <-].
      exists [], (buf ++ [w]).
      split; [reflexivity|split; [constructor|]].
      unfold seg_words_inv. simpl. split; [|split; lia].
      apply Forall2_app; [exact Hem|].
      constructor; [|constructor]. unfold emitted_as. simpl. auto 10.
  - intros [= <- <-]. exists [], (buf ++ [w]).
    split; [reflexivity|split; [constructor|]].
    now apply seg_words_place.
Qed.

Lemma seg_loop_words (L : Z) (words : list (Word T)) :
  forall (st : seg_state T) (buf : list (Word T)) (cues : list (Subtitle T)),
    seg_words_inv buf st ->
    seg_loop L st words = (cues, Done) ->
    Forall2 emitted_as (buf ++ words) (List.concat cues).
Proof.
  induction words as [|w rest IH]; intros st buf cues Hinv; simpl.
  - intros [= <-]. rewrite app_nil_r.
    destruct Hinv as (Hem & _).
    destruct (subtitle st); simpl; [exact Hem|now rewrite app_nil_r].
  - destruct (seg_body L st w) as [e|[ys st']] eqn:E; [discriminate|].
    destruct (seg_body_words _ _ _ _ _ _ Hinv E) as (pre & buf' & Heq & Hpre & Hinv').
    destruct (seg_loop L st' rest) as [out o] eqn:El.
    intros [= <- ->].
    rewrite concat_app.
    replace (buf ++ w :: rest) with (pre ++ (buf' ++ rest)).
    + apply Forall2_app; [exact Hpre|]. now apply (IH st').
    + rewrite app_assoc, <- Heq, <- app_assoc. reflexivity.
Qed.

(** X16.  When the segmenter ends normally, the words of the cues it
    emitted are the input words, in order, none lost and none repeated, each
    with the same times and with its text followed by a space, a
    line-break marker, both, or nothing. *)
Lemma words_to_subtitles_keeps_words :
  forall (words : list (Word T)) (split_on_pause_gt : T)
         (split_on_length_gt : Z) (cues : list (Subtitle T)),
    _words_to_subtitles words split_on_pause_gt split_on_length_gt
    = (cues, Done) ->
    Forall2 emitted_as words (List.concat cues).
Proof.
  intros words p L cues H.
  apply (seg_loop_words L words seg_init [] cues seg_words_init H).
Qed.

(** From two cues on, [_adjust_duration] does emit the last cue as it
    came in. *)
Lemma adjust_loop_last (m : T) (rest : list (Subtitle T)) :
  forall (prev : Subtitle T) (this : option (Subtitle T))
         (out : list (Subtitle T)) (final : Subtitle T),
    (rest <> [] \/ this = Some prev) ->
    last_error (prev :: rest) = Some final -> final <> [] ->
    adjust_loop m prev this rest Done = (out, Done) ->
    last_error out = Some final.
Proof.
  induction rest as [|next rest IH]; intros prev this out final Hthis Hlast Hne.
  - destruct Hthis as [Hthis| ->]; [congruence|]. simpl in *.
    injection Hlast as <-. destruct prev; [congruence|].
    simpl. now intros [= <-].
  - simpl adjust_loop.
    destruct (adjust_body m prev next) as [e|y]; [discriminate|].
    destruct (adjust_loop m next (Some next) rest Done) as [out' o] eqn:El.
    intros [= <- ->].
    assert (H : last_error out' = Some final).
    { apply (IH next (Some next) out' final); auto. }
    simpl. destruct out'; [discriminate|exact H].
Qed.

(** X17.  Given at least two cues from a source that ends normally,
    when [_adjust_duration] ends normally the last cue it emits is the
    last cue it received, unchanged, provided that cue is not empty. *)
Lemma adjust_duration_last_cue_unmodified :
  forall (c1 c2 : Subtitle T) (rest out : list (Subtitle T))
         (final : Subtitle T) (min_sub_duration : T),
    last_error (c1 :: c2 :: rest) = Some final -> final <> [] ->
    _adjust_duration (c1 :: c2 :: rest, Done) min_sub_duration = (out, Done) ->
    last_error out = Some final.
Proof.
  intros c1 c2 rest out final m Hlast Hne H.
  apply (adjust_loop_last m (c2 :: rest) c1 None out final); auto.
  left. congruence.
Qed.

End WordsKept.

(** * Further properties of the pipeline *)

(** ** The segmenter: invariants of the loop *)

Section SegmenterRules.

Context {T : Type} {num : PyNum T}.

(** An invariant [I] of the loop body gives a property [Pmid] of the
    cues yielded at a break and a property [Plast] of the cue flushed
    at the end, of which there is at most one. *)
Lemma seg_loop_rule (L : Z) (I : seg_state T -> Prop) (Pw : Word T -> Prop)
    (Pmid Plast : Subtitle T -> Prop) :
  (forall st w ys st',
      Pw w -> I st -> seg_body L st w = inr (ys, st') ->
      I st' /\ Forall Pmid ys) ->
  (forall st, I st -> subtitle st <> [] -> Plast (subtitle st)) ->
  forall (words : list (Word T)) (st : seg_state T),
    Forall Pw words -> I st ->
    exists full tail : list (Subtitle T),
      fst (seg_loop L st words) = full ++ tail /\
      Forall Pmid full /\ Forall Plast tail /\ (List.length tail <= 1)%nat.
Proof.
  intros Hstep Hlast. induction words as [|w rest IH]; intros st Hws Hinv.
  - simpl. destruct (subtitle st) as [|x r] eqn:E; simpl.
    + exists [], []. simpl. repeat split; auto.
    + exists [], [x :: r]. simpl. repeat split; auto.
      constructor; [|constructor]. rewrite <- E. apply Hlast; congruence.
  - inversion Hws as [|? ? Hw Hrest]; subst. simpl.
    destruct (seg_body L st w) as [e|[ys st']] eqn:E.
    + exists [], []. simpl. repeat split; auto.
    + destruct (Hstep _ _ _ _ Hw Hinv E) as [Hinv' Hys].
      destruct (IH st' Hrest Hinv') as (full & tail & Heq & Hfull & Htail & Hlen).
      destruct (seg_loop L st' rest) as [out o]. simpl in Heq |- *. subst out.
      exists (ys ++ full), tail. rewrite app_assoc.
      repeat split; auto. apply Forall_app. now split.
Qed.

(** When the loop body cannot fail under an invariant, the loop ends
    normally. *)
Lemma seg_loop_done (L : Z) (I : seg_state T -> Prop) (Pw : Word T -> Prop) :
  (forall st w, Pw w -> I st ->
                exists ys st', seg_body L st w = inr (ys, st') /\ I st') ->
  forall (words : list (Word T)) (st : seg_state T),
    Forall Pw words -> I st -> snd (seg_loop L st words) = Done.
Proof.
  intros Hstep. induction words as [|w rest IH]; intros st Hws Hinv.
  - reflexivity.
  - inversion Hws as [|? ? Hw Hrest]; subst. simpl.
    destruct (Hstep st w Hw Hinv) as (ys & st' & -> & Hinv').
    specialize (IH st' Hrest Hinv').
    destruct (seg_loop L st' rest) as [out o]. exact IH.
Qed.

Lemma len_nonneg (s : string) : 0 <= len s.
Proof. unfold len. lia. Qed.

Lemma len_append (a b : string) : len (a ++ b) = len a + len b.
Proof.
  unfold len. induction a as [|c a IH]; simpl String.length; [lia|].
  rewrite !Nat2Z.inj_succ. simpl in IH. lia.
Qed.

Lemma seg_fit_place (st : seg_state T) (w : Word T) :
  0 <= len_line st -> seg_fit_inv (place_word (Some w) st).
Proof.
  intros H. unfold seg_fit_inv. simpl. split.
  - pose proof (len_nonneg (word w ++ SPACE)). lia.
  - intros E. now destruct (subtitle st).
Qed.

(** The loop body fails exactly in one situation: the length test
    fires on the first line of a cue while the buffer is empty. *)
Lemma seg_body_error (L : Z) (st : seg_state T) (w : Word T) :
  (exists e, seg_body L st w = inl e) <->
  length_test L st w = true /\
  line_index st + 1 <> allowed_lines /\ subtitle st = [].
Proof.
  rewrite seg_body_cases. unfold apply_break.
  destruct (length_test L st w).
  - destruct (line_index st + 1 =? allowed_lines) eqn:E.
    + apply Z.eqb_eq in E. simpl. split.
      * intros [e He]. discriminate.
      * intros (_ & Hne & _). congruence.
    + apply Z.eqb_neq in E. destruct (subtitle st) as [|x r]; simpl.
      * split; [now auto|]. intros _. now exists IndexError.
      * split; [intros [e He]; discriminate|].
        intros (_ & _ & Hsub). discriminate.
  - split; [|intros (H & _); discriminate].
    intros [e He]. destruct (endswith_punct (word w)); [|discriminate].
    destruct (line_index st + 1 =? allowed_lines); [discriminate|].
    destruct (subtitle st ++ [w]) eqn:Es; [|discriminate].
    now destruct (subtitle st).
Qed.

Lemma seg_body_fit (L : Z) (st : seg_state T) (w : Word T) :
  len (word w) <= L -> seg_fit_inv st ->
  exists ys st', seg_body L st w = inr (ys, st') /\ seg_fit_inv st'.
Proof.
  intros Hw [Hpos Hempty].
  destruct (seg_body L st w) as [e|[ys st']] eqn:E.
  - exfalso.
    destruct (proj1 (seg_body_error L st w) (ex_intro _ e E))
      as (Htest & _ & Hsub).
    unfold length_test in Htest. rewrite (Hempty Hsub) in Htest.
    rewrite Z.gtb_ltb in Htest. apply Z.ltb_lt in Htest. lia.
  - exists ys, st'. split; [reflexivity|].
    rewrite seg_body_cases in E. unfold apply_break in E.
    destruct (length_test L st w).
    + destruct (line_index st + 1 =? allowed_lines).
      * injection E as <- <-.
        apply (seg_fit_place (mkSeg [] 0 0) w). simpl. lia.
      * destruct (subtitle st); [discriminate|].
        injection E as <- <-.
        apply (seg_fit_place (mkSeg _ 0 (line_index st + 1)) w). simpl. lia.
    + destruct (endswith_punct (word w)).
      * destruct (line_index st + 1 =? allowed_lines).
        -- injection E as <- <-. unfold seg_fit_inv. simpl. now split.
        -- destruct (subtitle st ++ [w]); [discriminate|].
           injection E as <- <-. unfold seg_fit_inv. simpl. now split.
      * injection E as <- <-. now apply seg_fit_place.
Qed.

Lemma seg_fit_init : seg_fit_inv (@seg_init T).
Proof. unfold seg_fit_inv. simpl. split; [lia|reflexivity]. Qed.

Lemma seg_loop_fit_done (L : Z) (words : list (Word T)) :
  Forall (fun w => len (word w) <= L) words ->
  snd (seg_loop L seg_init words) = Done.
Proof.
  intros Hws.
  apply (seg_loop_done L seg_fit_inv (fun w => len (word w) <= L));
    [apply seg_body_fit|exact Hws|apply seg_fit_init].
Qed.

Lemma seg_body_index_error (L : Z) (st : seg_state T) (w : Word T) :
  seg_body L st w = inl IndexError <->
  length_test L st w = true /\
  line_index st + 1 <> allowed_lines /\ subtitle st = [].
Proof.
  rewrite <- seg_body_error. split.
  - intros H. now exists IndexError.
  - intros [e He]. rewrite He. f_equal.
    rewrite seg_body_cases in He. unfold apply_break in He.
    destruct (length_test L st w).
    + destruct (line_index st + 1 =? allowed_lines); [discriminate|].
      destruct (subtitle st); [|discriminate]. simpl in He. congruence.
    + destruct (endswith_punct (word w)); [|discriminate].
      destruct (line_index st + 1 =? allowed_lines); [discriminate|].
      destruct (subtitle st ++ [w]); [congruence|discriminate].
Qed.

(** X1.  The loop body of [_words_to_subtitles] raises, and then
    [IndexError], exactly when the length test fires on the first
    line of a cue while the buffer is empty. *)
Theorem seg_body_raises_iff :
  forall (split_on_length_gt : Z) (st : seg_state T) (w : Word T),
    (exists e, seg_body split_on_length_gt st w = inl e) <->
    seg_body split_on_length_gt st w = inl IndexError /\
    length_test split_on_length_gt st w = true /\
    line_index st + 1 <> allowed_lines /\ subtitle st = [].
Proof.
  intros L st w. rewrite seg_body_index_error, seg_body_error. tauto.
Qed.

(** X2.  When no word is longer than [split_on_length_gt],
    [_words_to_subtitles] never raises. *)
Theorem words_to_subtitles_no_raise :
  forall (words : list (Word T)) (split_on_pause_gt : T)
         (split_on_length_gt : Z),
    Forall (fun w => len (word w) <= split_on_length_gt) words ->
    snd (_words_to_subtitles words split_on_pause_gt split_on_length_gt)
    = Done.
Proof. intros words p L Hws. now apply seg_loop_fit_done. Qed.

(** X3.  When the first word is longer than [split_on_length_gt],
    [_words_to_subtitles] raises [IndexError] before it yields any
    cue, whatever words follow. *)
Theorem words_to_subtitles_first_word_too_long :
  forall (w : Word T) (rest : list (Word T)) (split_on_pause_gt : T)
         (split_on_length_gt : Z),
    split_on_length_gt < len (word w) ->
    _words_to_subtitles (w :: rest) split_on_pause_gt split_on_length_gt
    = ([], Raised IndexError).
Proof.
  intros w rest p L Hlong. unfold _words_to_subtitles. simpl.
  assert (E : seg_body L seg_init w = inl IndexError).
  { apply seg_body_index_error. split; [|split; [discriminate|reflexivity]].
    unfold length_test. simpl. rewrite Z.gtb_ltb. apply Z.ltb_lt. lia. }
  now rewrite E.
Qed.

End SegmenterRules.

(** ** The segmenter: what the cues look like *)

Section CueShape.

Context {T : Type} {num : PyNum T}.

Lemma seg_lines_init : seg_lines_inv (@seg_init T).
Proof. unfold seg_lines_inv. simpl. split; [now left|lia]. Qed.

Lemma seg_body_lines (L : Z) (st : seg_state T) (w : Word T)
    (ys : list (Subtitle T)) (st' : seg_state T) :
  seg_lines_inv st ->
  seg_body L st w = inr (ys, st') ->
  seg_lines_inv st' /\ Forall (fun c => c <> []) ys.
Proof.
  intros [Hli Hne]. rewrite seg_body_cases. unfold apply_break.
  assert (Happ : forall l (x : Word T), l ++ [x] <> [])
    by (intros l x; now destruct l).
  destruct (length_test L st w); [|destruct (endswith_punct (word w))].
  - destruct (line_index st + 1 =? allowed_lines) eqn:E.
    + apply Z.eqb_eq in E. unfold allowed_lines in E.
      intros [= <- <-]. split.
      * unfold seg_lines_inv. simpl. split; [now left|lia].
      * constructor; [apply Hne; lia|constructor].
    + apply Z.eqb_neq in E. unfold allowed_lines in E.
      destruct (subtitle st) as [|x r]; [discriminate|].
      intros [= <- <-]. split; [|constructor].
      unfold seg_lines_inv. simpl. split; [lia|]. intros _. apply Happ.
  - destruct (line_index st + 1 =? allowed_lines) eqn:E.
    + intros [= <- <-]. split; [apply seg_lines_init|].
      constructor; [apply Happ|constructor].
    + apply Z.eqb_neq in E. unfold allowed_lines in E.
      destruct (subtitle st ++ [w]) as [|x r] eqn:Es; [discriminate|].
      intros [= <- <-]. split; [|constructor].
      unfold seg_lines_inv. simpl. split; [lia|].
      intros _. now destruct r.
  - intros [= <- <-]. split; [|constructor].
    unfold seg_lines_inv. simpl. split; [exact Hli|]. intros _. apply Happ.
Qed.

Lemma seg_loop_nonempty (L : Z) (words : list (Word T)) :
  Forall (fun c => c <> []) (fst (seg_loop L seg_init words)).
Proof.
  assert (Hws : Forall (fun _ : Word T => True) words)
    by (apply Forall_forall; intros; exact I).
  destruct (seg_loop_rule L seg_lines_inv (fun _ : Word T => True)
              (fun c : Subtitle T => c <> []) (fun c : Subtitle T => c <> [])
              (fun st w ys st' _ => seg_body_lines L st w ys st')
              (fun st _ H => H)
              words seg_init Hws seg_lines_init)
    as (full & tail & -> & Hfull & Htail & _).
  apply Forall_app. now split.
Qed.

(** X4.  Every cue emitted by [_words_to_subtitles] is non-empty,
    whatever the words are, also when the generator later raises. *)
Theorem words_to_subtitles_cues_nonempty :
  forall (words : list (Word T)) (split_on_pause_gt : T)
         (split_on_length_gt : Z),
    Forall (fun c => c <> [])
      (fst (_words_to_subtitles words split_on_pause_gt split_on_length_gt)).
Proof. intros words p L. apply seg_loop_nonempty. Qed.

Lemma apply_break_full (sub : Subtitle T) (st : seg_state T)
    (ys : list (Subtitle T)) (st' : seg_state T) :
  cue_lf sub = line_index st ->
  apply_break true sub st = inr (ys, st') ->
  Forall (fun c => count_lf (sentence c) = allowed_lines - 1) ys.
Proof.
  intros Hlf. unfold apply_break.
  destruct (line_index st + 1 =? allowed_lines) eqn:E.
  - apply Z.eqb_eq in E. intros [= <- <-].
    constructor; [|constructor]. rewrite count_lf_sentence. lia.
  - destruct sub; [discriminate|]. intros [= <- <-]. constructor.
Qed.

Lemma seg_body_full (L : Z) (st : seg_state T) (w : Word T)
    (ys : list (Subtitle T)) (st' : seg_state T) :
  count_lf (word w) = 0 ->
  seg_inv st ->
  seg_body L st w = inr (ys, st') ->
  seg_inv st' /\
  Forall (fun c => count_lf (sentence c) = allowed_lines - 1) ys.
Proof.
  intros Hw Hinv E.
  split; [exact (proj1 (seg_body_inv L st w ys st' Hw Hinv E))|].
  destruct Hinv as (_ & Hlf & _).
  rewrite seg_body_cases in E.
  destruct (length_test L st w); [|destruct (endswith_punct (word w))].
  - destruct (apply_break true (subtitle st) st) as [e|[ys0 st0]] eqn:E0;
      [discriminate|].
    injection E as <- <-. exact (apply_break_full _ _ _ _ Hlf E0).
  - refine (apply_break_full _ _ _ _ _ E).
    rewrite cue_lf_app. simpl. lia.
  - injection E as <- <-. constructor.
Qed.

Lemma Forall_removelast (A : Type) (P : A -> Prop) (l : list A) :
  Forall P l -> Forall P (removelast l).
Proof.
  induction 1 as [|x l Hx Hl IH]; [constructor|].
  simpl. destruct l; [constructor|]. now constructor.
Qed.

Lemma seg_loop_full (L : Z) (words : list (Word T)) :
  Forall (fun w => count_lf (word w) = 0) words ->
  Forall (fun c => count_lf (sentence c) = allowed_lines - 1)
    (removelast (fst (seg_loop L seg_init words))).
Proof.
  intros Hws.
  destruct (seg_loop_rule L seg_inv (fun w : Word T => count_lf (word w) = 0)
              (fun c : Subtitle T => count_lf (sentence c) = allowed_lines - 1)
              (fun _ : Subtitle T => True)
              (seg_body_full L)
              (fun _ _ _ => I)
              words seg_init Hws seg_inv_init)
    as (full & tail & -> & Hfull & _ & Hlen).
  destruct tail as [|x [|y r]].
  - rewrite app_nil_r. now apply Forall_removelast.
  - now rewrite removelast_last.
  - simpl in Hlen. lia.
Qed.

(** X5.  When no word text holds a line feed, every cue emitted by
    [_words_to_subtitles] except the last one holds exactly
    [allowed_lines - 1] line feeds: only the final cue can have fewer
    than [allowed_lines] lines. *)
Theorem words_to_subtitles_full_cues :
  forall (words : list (Word T)) (split_on_pause_gt : T)
         (split_on_length_gt : Z),
    Forall (fun w => count_lf (word w) = 0) words ->
    Forall (fun c => count_lf (sentence c) = allowed_lines - 1)
      (removelast
         (fst (_words_to_subtitles words split_on_pause_gt
                 split_on_length_gt))).
Proof. intros words p L Hws. now apply seg_loop_full. Qed.

End CueShape.

(** ** The segmenter: line widths *)

Section LineWidths.

Context {T : Type} {num : PyNum T}.

Lemma string_app_assoc (a b c : string) :
  ((a ++ b) ++ c)%string = (a ++ (b ++ c))%string.
Proof. induction a as [|x a IH]; simpl; [reflexivity|now rewrite IH]. Qed.

Lemma count_cr_nonneg (s : string) : 0 <= count_cr s.
Proof.
  induction s as [|c s IH]; simpl; [lia|].
  destruct (Ascii.eqb c "013"); lia.
Qed.

Lemma count_cr_app (a b : string) :
  count_cr (a ++ b) = count_cr a + count_cr b.
Proof. induction a as [|c a IH]; simpl; [reflexivity|]. rewrite IH. lia. Qed.

Lemma line_widths_char (c : ascii) (s : string) (cur : Z) :
  Ascii.eqb c "013" = false ->
  line_widths (String c s) cur = line_widths s (cur + 1).
Proof. intros Hc. simpl. rewrite Hc. now destruct s. Qed.

(** Text without a carriage return only widens the current line. *)
Lemma line_widths_plain (a b : string) :
  count_cr a = 0 ->
  forall cur : Z, line_widths (a ++ b) cur = line_widths b (cur + len a).
Proof.
  induction a as [|c a IH]; intros Ha cur.
  - simpl. f_equal. unfold len. simpl. lia.
  - simpl in Ha. pose proof (count_cr_nonneg a).
    destruct (Ascii.eqb c "013") eqn:Hc; [lia|].
    change (String c a ++ b)%string with (String c (a ++ b)).
    rewrite line_widths_char by exact Hc.
    rewrite IH by lia. f_equal.
    unfold len. simpl String.length. lia.
Qed.

(** A marker closes the current line and opens an empty one. *)
Lemma line_widths_marker (b : string) (cur : Z) :
  line_widths (CRLF ++ b) cur = cur :: line_widths b 0.
Proof. reflexivity. Qed.

Lemma sentence_cons (w : Word T) (r : Subtitle T) :
  sentence (w :: r) = (word w ++ sentence r)%string.
Proof.
  unfold sentence. simpl. destruct (map word r) eqn:E; [|reflexivity].
  simpl. now rewrite append_empty_r.
Qed.

Lemma sentence_snoc (c : Subtitle T) (w : Word T) :
  sentence (c ++ [w]) = (sentence c ++ word w)%string.
Proof.
  induction c as [|x c IH].
  - simpl. reflexivity.
  - change ((x :: c) ++ [w]) with (x :: (c ++ [w])).
    now rewrite !sentence_cons, IH, string_app_assoc.
Qed.

Lemma sentence_marked (c : Subtitle T) :
  c <> [] ->
  sentence (update_last (fun l => set_word l (word l ++ CRLF)) c)
  = (sentence c ++ CRLF)%string.
Proof.
  induction c as [|x c IH]; [congruence|]. intros _.
  destruct c as [|y c].
  - simpl update_last. rewrite !sentence_cons. simpl sentence.
    now rewrite !append_empty_r.
  - change (update_last (fun l => set_word l (word l ++ CRLF)) (x :: y :: c))
      with (x :: update_last (fun l => set_word l (word l ++ CRLF)) (y :: c)).
    rewrite sentence_cons, IH by congruence.
    rewrite (sentence_cons x (y :: c)). symmetry. apply string_app_assoc.
Qed.

Lemma seg_width_init (L : Z) : 0 <= L -> seg_width_inv L (@seg_init T).
Proof.
  intros HL. unfold seg_width_inv. simpl. split; [lia|].
  exists []. split; [constructor|reflexivity].
Qed.

(** The buffer as a cue: its lines are the closed ones and the
    current one. *)
Lemma seg_width_cue (L : Z) (st : seg_state T) :
  seg_width_inv L st -> narrow L (subtitle st).
Proof.
  intros (Hlen & closed & Hclosed & Hw). unfold narrow.
  specialize (Hw EmptyString). rewrite append_empty_r in Hw. rewrite Hw.
  apply Forall_app. split; [exact Hclosed|].
  simpl. constructor; [exact Hlen|constructor].
Qed.

(** A plain text joins the current line. *)
Lemma seg_width_snoc (L : Z) (st : seg_state T) (w : Word T) (n li : Z) :
  count_cr (word w) = 0 ->
  n = len_line st + len (word w) -> n <= L + 1 ->
  seg_width_inv L st -> seg_width_inv L (mkSeg (subtitle st ++ [w]) n li).
Proof.
  intros Hcr -> Hn (Hlen & closed & Hclosed & Hw).
  unfold seg_width_inv. simpl. split; [exact Hn|].
  exists closed. split; [exact Hclosed|]. intros b.
  rewrite sentence_snoc, string_app_assoc, Hw.
  now rewrite line_widths_plain.
Qed.

(** A marker on the last buffered word closes the current line. *)
Lemma seg_width_marked (L : Z) (st : seg_state T) (li : Z) :
  0 <= L -> subtitle st <> [] ->
  seg_width_inv L st ->
  seg_width_inv L
    (mkSeg (update_last (fun l => set_word l (word l ++ CRLF)) (subtitle st))
           0 li).
Proof.
  intros HL Hne (Hlen & closed & Hclosed & Hw).
  unfold seg_width_inv. simpl. split; [lia|].
  exists (closed ++ [len_line st]). split.
  - apply Forall_app. split; [exact Hclosed|]. now repeat constructor.
  - intros b. rewrite sentence_marked by exact Hne.
    rewrite string_app_assoc, Hw, line_widths_marker.
    now rewrite <- app_assoc.
Qed.

Lemma seg_width_place (L : Z) (st : seg_state T) (w : Word T) :
  count_cr (word w) = 0 ->
  len_line st + len (word w) <= L ->
  seg_width_inv L st -> seg_width_inv L (place_word (Some w) st).
Proof.
  intros Hcr Hfit Hinv. unfold place_word.
  apply (seg_width_snoc L st (set_word w (word w ++ SPACE))); trivial.
  - simpl. rewrite count_cr_app, Hcr. reflexivity.
  - simpl. rewrite len_append. change (len SPACE) with 1. lia.
Qed.

Lemma seg_body_width (L : Z) (st : seg_state T) (w : Word T)
    (ys : list (Subtitle T)) (st' : seg_state T) :
  count_cr (word w) = 0 /\ len (word w) <= L ->
  seg_width_inv L st ->
  seg_body L st w = inr (ys, st') ->
  seg_width_inv L st' /\ Forall (narrow L) ys.
Proof.
  intros [Hcr Hw] Hinv. rewrite seg_body_cases. unfold apply_break.
  pose proof (len_nonneg (word w)) as Hpos.
  assert (HL : 0 <= L) by lia.
  destruct (length_test L st w) eqn:Htest;
    [|destruct (endswith_punct (word w))].
  - destruct (line_index st + 1 =? allowed_lines).
    + intros [= <- <-]. split.
      * apply (seg_width_place L (mkSeg [] 0 0) w); trivial.
        now apply seg_width_init.
      * constructor; [now apply seg_width_cue|constructor].
    + destruct (subtitle st) as [|x r] eqn:Es; [discriminate|].
      rewrite <- Es. intros [= <- <-]. split; [|constructor].
      apply (seg_width_place L (mkSeg _ 0 (line_index st + 1)) w); trivial.
      apply seg_width_marked; trivial. congruence.
  - unfold length_test in Htest. rewrite Z.gtb_ltb in Htest.
    apply Z.ltb_ge in Htest.
    assert (Hsn : forall li, seg_width_inv L
                    (mkSeg (subtitle st ++ [w])
                           (len_line st + len (word w)) li)).
    { intros li. apply seg_width_snoc; trivial. lia. }
    destruct (line_index st + 1 =? allowed_lines).
    + intros [= <- <-]. split; [now apply seg_width_init|].
      constructor; [|constructor].
      apply (seg_width_cue L (mkSeg (subtitle st ++ [w]) _ 0) (Hsn 0)).
    + destruct (subtitle st ++ [w]) as [|x r] eqn:Es; [discriminate|].
      rewrite <- Es in Hsn |- *. intros [= <- <-]. split; [|constructor].
      apply (seg_width_marked L
               (mkSeg (subtitle st ++ [w]) (len_line st + len (word w)) 0));
        trivial.
      simpl. now destruct (subtitle st).
  - unfold length_test in Htest. rewrite Z.gtb_ltb in Htest.
    apply Z.ltb_ge in Htest.
    intros [= <- <-]. split; [|constructor].
    now apply seg_width_place.
Qed.

Lemma seg_loop_width (L : Z) (words : list (Word T)) :
  Forall (fun w => count_cr (word w) = 0 /\ len (word w) <= L) words ->
  Forall (narrow L) (fst (seg_loop L seg_init words)).
Proof.
  intros Hws. destruct words as [|w0 rest]; [constructor|].
  assert (HL : 0 <= L).
  { inversion Hws as [|? ? [_ H] _]; subst.
    pose proof (len_nonneg (word w0)). lia. }
  destruct (seg_loop_rule L (seg_width_inv L)
              (fun w : Word T => count_cr (word w) = 0 /\ len (word w) <= L)
              (narrow L) (narrow L)
              (seg_body_width L)
              (fun st H _ => seg_width_cue L st H)
              (w0 :: rest) seg_init Hws (seg_width_init L HL))
    as (full & tail & -> & Hfull & Htail & _).
  apply Forall_app. now split.
Qed.

(** X6.  When no word text holds a carriage return and no word is
    longer than [split_on_length_gt], no physical line of any emitted
    cue is wider than [split_on_length_gt] characters plus one trailing
    space. *)
Theorem words_to_subtitles_line_widths :
  forall (words : list (Word T)) (split_on_pause_gt : T)
         (split_on_length_gt : Z),
    Forall (fun w => count_cr (word w) = 0
                     /\ len (word w) <= split_on_length_gt) words ->
    Forall (fun c => Forall (fun n => n <= split_on_length_gt + 1)
                       (line_widths (sentence c) 0))
      (fst (_words_to_subtitles words split_on_pause_gt split_on_length_gt)).
Proof. intros words p L Hws. now apply seg_loop_width. Qed.

End LineWidths.

(** ** The duration adjuster: what it emits *)

Section AdjusterShape.

Context {T : Type} {num : PyNum T}.

Lemma cue_start_nonempty (c : Subtitle T) :
  c <> [] -> exists s, cue_start c = Some s.
Proof. destruct c as [|w r]; [congruence|]. intros _. now exists (start_time w). Qed.

Lemma cue_end_nonempty (c : Subtitle T) :
  c <> [] -> exists e, cue_end c = Some e.
Proof.
  unfold cue_end. induction c as [|w r IH]; [congruence|]. intros _.
  destruct r as [|w' r']; [now exists (end_time w)|].
  apply IH. congruence.
Qed.

(** On non-empty cues the loop body cannot fail. *)
Lemma adjust_body_ok (m : T) (prev next : Subtitle T) :
  prev <> [] -> next <> [] -> exists y, adjust_body m prev next = inr y.
Proof.
  intros Hp Hn. unfold adjust_body.
  destruct (cue_end_nonempty prev Hp) as [e ->].
  destruct (cue_start_nonempty prev Hp) as [s ->].
  destruct (cue_start_nonempty next Hn) as [s' ->].
  destruct (num_ge (num_sub e s) m); [eauto|].
  destruct (num_gt (num_add s m) s'); eauto.
Qed.

Lemma adjust_loop_total (m : T) (rest : list (Subtitle T)) :
  forall (prev : Subtitle T) (this : option (Subtitle T)),
    Forall (fun c => c <> []) (prev :: rest) ->
    snd (adjust_loop m prev this rest Done) = Done /\
    (this = Some prev \/ rest <> [] ->
     List.length (fst (adjust_loop m prev this rest Done))
     = S (List.length rest)).
Proof.
  induction rest as [|next rest IH]; intros prev this Hne.
  - simpl. split; [reflexivity|].
    intros [-> | H]; [|congruence].
    inversion Hne as [|? ? Hp _]; subst. now destruct prev.
  - inversion Hne as [|? ? Hp Hrest]; subst.
    inversion Hrest as [|? ? Hn _]; subst.
    simpl. destruct (adjust_body_ok m prev next Hp Hn) as [y ->].
    destruct (IH next (Some next) Hrest) as [Hdone Hlen].
    destruct (adjust_loop m next (Some next) rest Done) as [out o].
    simpl in *. split; [exact Hdone|].
    intros _. f_equal. apply Hlen. now left.
Qed.

(** X7.  Given at least two cues, all non-empty, from a source that
    ends normally, [_adjust_duration] ends normally and emits as many
    cues as it received. *)
Theorem adjust_duration_total :
  forall (c1 c2 : Subtitle T) (rest : list (Subtitle T))
         (min_sub_duration : T),
    Forall (fun c => c <> []) (c1 :: c2 :: rest) ->
    snd (_adjust_duration (c1 :: c2 :: rest, Done) min_sub_duration) = Done /\
    List.length (fst (_adjust_duration (c1 :: c2 :: rest, Done)
                        min_sub_duration))
    = List.length (c1 :: c2 :: rest).
Proof.
  intros c1 c2 rest m Hne. unfold _adjust_duration.
  destruct (adjust_loop_total m (c2 :: rest) c1 None Hne) as [Hdone Hlen].
  split; [exact Hdone|]. apply Hlen. right. congruence.
Qed.

Lemma adjust_loop_nth (m : T) (up : outcome) (rest : list (Subtitle T)) :
  forall (prev : Subtitle T) (this : option (Subtitle T)) (i : nat)
         (c next y : Subtitle T),
    nth_error (prev :: rest) i = Some c ->
    nth_error (prev :: rest) (S i) = Some next ->
    nth_error (fst (adjust_loop m prev this rest up)) i = Some y ->
    adjust_body m c next = inr y.
Proof.
  induction rest as [|next0 rest IH]; intros prev this i c next y Hc Hn Hy.
  - simpl in Hn. now destruct i.
  - simpl in Hy.
    destruct (adjust_body m prev next0) as [e|y0] eqn:Hbody.
    + simpl in Hy. now destruct i.
    + destruct (adjust_loop m next0 (Some next0) rest up) as [out o] eqn:El.
      simpl in Hy. destruct i as [|i].
      * simpl in Hc, Hn, Hy. congruence.
      * apply (IH next0 (Some next0) i c next y); trivial.
        now rewrite El.
Qed.

(** X8.  One-cue lookahead: the cue emitted at position [i] is what
    the loop body makes of the input cues at positions [i] and
    [i + 1], and of nothing else. *)
Theorem adjust_duration_lookahead :
  forall (cues : list (Subtitle T)) (up : outcome) (min_sub_duration : T)
         (i : nat) (c next y : Subtitle T),
    nth_error cues i = Some c ->
    nth_error cues (S i) = Some next ->
    nth_error (fst (_adjust_duration (cues, up) min_sub_duration)) i
    = Some y ->
    adjust_body min_sub_duration c next = inr y.
Proof.
  intros cues up m i c next y Hc Hn Hy. unfold _adjust_duration in Hy.
  destruct cues as [|first rest]; [now destruct i|].
  now apply (adjust_loop_nth m up rest first None i c next y).
Qed.

Lemma adjust_loop_raised (m : T) (e : exn) (rest : list (Subtitle T)) :
  forall (prev : Subtitle T) (this : option (Subtitle T)),
    snd (adjust_loop m prev this rest (Raised e)) <> Done.
Proof.
  induction rest as [|next rest IH]; intros prev this; simpl.
  - discriminate.
  - destruct (adjust_body m prev next); [discriminate|].
    specialize (IH next (Some next)).
    now destruct (adjust_loop m next (Some next) rest (Raised e)).
Qed.

Lemma adjust_duration_raised (m : T) (e : exn) (cues : list (Subtitle T)) :
  snd (_adjust_duration (cues, Raised e) m) <> Done.
Proof.
  unfold _adjust_duration. destruct cues; [discriminate|].
  apply adjust_loop_raised.
Qed.

Lemma write_loop_raised (e : exn) (subs : list (Subtitle T)) :
  forall (i : Z) (srt_file : string),
    snd (write_loop i subs (Raised e) srt_file) <> Done.
Proof.
  induction subs as [|c subs IH]; intros i srt_file; simpl.
  - discriminate.
  - destruct (write_fragment i c); [discriminate|apply IH].
Qed.

(** X9.  A failure of the segmenter is never swallowed: when
    [_words_to_subtitles] raises, [words_to_srt] raises too. *)
Theorem words_to_srt_propagates_failure :
  forall (words : list (Word T)) (srt_file : string) (e : exn),
    snd (_words_to_subtitles words default_split_on_pause_gt
           default_split_on_length_gt) = Raised e ->
    exists e', snd (words_to_srt words srt_file) = Raised e'.
Proof.
  intros words srt_file e He. unfold words_to_srt.
  destruct (_words_to_subtitles words default_split_on_pause_gt
              default_split_on_length_gt) as [cues o].
  simpl in He. subst o.
  pose proof (adjust_duration_raised default_min_sub_duration e cues) as Ha.
  destruct (_adjust_duration (cues, Raised e) default_min_sub_duration)
    as [out [|e1]]; [now elim Ha|].
  unfold _write_srt. simpl.
  pose proof (write_loop_raised e1 out 0 srt_file) as Hw.
  destruct (write_loop 0 out (Raised e1) srt_file) as [s [|e2]];
    [now elim Hw|]. now exists e2.
Qed.

(** ** The renderer *)

Lemma write_loop_appends (subs : list (Subtitle T)) (up : outcome) :
  forall (i : Z) (srt_file : string),
    write_loop i subs up srt_file
    = ((srt_file ++ fst (write_loop i subs up EmptyString))%string,
       snd (write_loop i subs up EmptyString)).
Proof.
  induction subs as [|c subs IH]; intros i srt_file; simpl.
  - now rewrite append_empty_r.
  - destruct (write_fragment i c) as [e|text]; simpl.
    + now rewrite append_empty_r.
    + rewrite (IH (i + 1) (srt_file ++ text)%string).
      rewrite (IH (i + 1) text). simpl.
      now rewrite string_app_assoc.
Qed.

(** X10.  [_write_srt] only appends: what the file held before stays
    in front, and the text added and the way the call ends do not
    depend on it. *)
Theorem write_srt_appends :
  forall (subtitles : stream (Subtitle T)) (srt_file : string),
    _write_srt subtitles srt_file
    = ((srt_file ++ fst (_write_srt subtitles EmptyString))%string,
       snd (_write_srt subtitles EmptyString)).
Proof. intros [subs up] srt_file. apply write_loop_appends. Qed.

Lemma write_loop_app (a b : list (Subtitle T)) (up : outcome) :
  forall (i : Z) (srt_file : string),
    write_loop i (a ++ b) up srt_file
    = match write_loop i a Done srt_file with
      | (s, Done) => write_loop (i + Z.of_nat (List.length a)) b up s
      | failed => failed
      end.
Proof.
  induction a as [|c a IH]; intros i srt_file.
  - simpl. now rewrite Z.add_0_r.
  - change ((c :: a) ++ b) with (c :: (a ++ b)).
    assert (Hi : i + Z.of_nat (List.length (c :: a))
                 = i + 1 + Z.of_nat (List.length a))
      by (simpl List.length; lia).
    rewrite Hi. simpl write_loop.
    destruct (write_fragment i c) as [e|text]; [reflexivity|]. apply IH.
Qed.

(** X11.  Writing the cues [a] followed by [b] is writing [a] and,
    when that succeeds, writing [b] after it with the numbering
    carried on from [len(a) + 1]; when a cue of [a] fails, nothing of
    [b] is written. *)
Theorem write_srt_app :
  forall (a b : list (Subtitle T)) (up : outcome) (srt_file : string),
    _write_srt (a ++ b, up) srt_file
    = match _write_srt (a, Done) srt_file with
      | (s, Done) => write_loop (Z.of_nat (List.length a)) b up s
      | failed => failed
      end.
Proof.
  intros a b up srt_file. unfold _write_srt. simpl.
  now rewrite write_loop_app.
Qed.

End AdjusterShape.

(** ** From words that do not overlap to cues that do not overlap *)

Section EndToEnd.

Context {T : Type} {num : PyNum T}.

Lemma words_chained_cons (a : Word T) (l : list (Word T)) :
  words_chained (a :: l)
  = match l with
    | [] => true
    | b :: _ => num_le (end_time a) (start_time b) && words_chained l
    end.
Proof. destruct l; reflexivity. Qed.

(** The segmenter changes no time, so the emitted words are chained
    when the input words are. *)
Lemma words_chained_emitted (ws fl : list (Word T)) :
  Forall2 emitted_as ws fl -> words_chained ws = true ->
  words_chained fl = true.
Proof.
  induction 1 as [|w w' ws fl Hw Hrest IH]; [reflexivity|].
  rewrite !words_chained_cons.
  destruct Hrest as [|x x' ws fl Hx Hrest]; [reflexivity|].
  intros H. apply andb_prop in H as [Hle Hch].
  destruct Hw as (_ & He & _). destruct Hx as (Hs & _).
  rewrite He, Hs, Hle. simpl. now apply IH.
Qed.

Lemma words_chained_app_r (a b : list (Word T)) :
  words_chained (a ++ b) = true -> words_chained b = true.
Proof.
  induction a as [|x a IH]; [trivial|].
  change ((x :: a) ++ b) with (x :: (a ++ b)).
  rewrite words_chained_cons. destruct (a ++ b) eqn:E.
  - destruct a; [simpl in E; now subst|discriminate].
  - intros H. apply andb_prop in H as [_ H]. now apply IH.
Qed.

(** In a chained list the cue [a] ends before what follows it starts. *)
Lemma words_chained_joint (a : Subtitle T) (b : Word T) (r : list (Word T)) :
  a <> [] -> words_chained (a ++ b :: r) = true ->
  exists e, cue_end a = Some e /\ num_le e (start_time b) = true.
Proof.
  unfold cue_end. induction a as [|x a IH]; [congruence|]. intros _.
  change ((x :: a) ++ b :: r) with (x :: (a ++ b :: r)).
  rewrite words_chained_cons. destruct a as [|y a].
  - simpl. intros H. apply andb_prop in H as [H _]. eauto.
  - change ((y :: a) ++ b :: r) with (y :: (a ++ b :: r)).
    intros H. apply andb_prop in H as [_ H].
    apply IH; [congruence|exact H].
Qed.

Lemma no_overlap_concat (cues : list (Subtitle T)) :
  Forall (fun c => c <> []) cues ->
  words_chained (List.concat cues) = true ->
  no_overlap cues = true.
Proof.
  induction cues as [|a cues IH]; [reflexivity|].
  intros Hne Hch. inversion Hne as [|? ? Ha Hrest]; subst.
  rewrite no_overlap_cons. destruct cues as [|b cues]; [reflexivity|].
  simpl in Hch. pose proof (words_chained_app_r _ _ Hch) as Hch'.
  rewrite IH by assumption. rewrite andb_true_r.
  inversion Hrest as [|? ? Hb _]; subst.
  destruct b as [|wb rb]; [congruence|].
  simpl in Hch. destruct (words_chained_joint a wb _ Ha Hch) as (e & He & Hle).
  unfold ends_before. rewrite He. exact Hle.
Qed.

Lemma seg_loop_no_overlap (L : Z) (words : list (Word T))
    (cues : list (Subtitle T)) :
  seg_loop L seg_init words = (cues, Done) ->
  words_chained words = true ->
  no_overlap cues = true.
Proof.
  intros Hrun Hch. apply no_overlap_concat.
  - pose proof (seg_loop_nonempty L words) as H. now rewrite Hrun in H.
  - apply (words_chained_emitted words); [|exact Hch].
    exact (seg_loop_words L words seg_init [] cues seg_words_init Hrun).
Qed.

(** X12.  When each word ends no later than the next one starts and
    the segmenter ends normally, no cue it emits overlaps its
    successor. *)
Theorem words_to_subtitles_no_overlap :
  forall (words : list (Word T)) (split_on_pause_gt : T)
         (split_on_length_gt : Z) (cues : list (Subtitle T)),
    _words_to_subtitles words split_on_pause_gt split_on_length_gt
    = (cues, Done) ->
    words_chained words = true ->
    no_overlap cues = true.
Proof. intros words p L cues. apply seg_loop_no_overlap. Qed.

Lemma seg_loop_some_cue (L : Z) (w : Word T) (rest : list (Word T))
    (cues : list (Subtitle T)) :
  seg_loop L seg_init (w :: rest) = (cues, Done) -> cues <> [].
Proof.
  intros Hrun Hnil. subst cues.
  pose proof (seg_loop_words L (w :: rest) seg_init [] [] seg_words_init Hrun)
    as H.
  inversion H.
Qed.

(** X13.  On at least one word, none longer than
    [split_on_length_gt], the first two stages raise nothing: the cue
    stream that reaches [_write_srt] ends normally. *)
Theorem cue_stream_ends_normally :
  forall (w : Word T) (rest : list (Word T)) (split_on_pause_gt : T)
         (split_on_length_gt : Z) (min_sub_duration : T),
    Forall (fun x => len (word x) <= split_on_length_gt) (w :: rest) ->
    snd (_adjust_duration
           (_words_to_subtitles (w :: rest) split_on_pause_gt
              split_on_length_gt)
           min_sub_duration) = Done.
Proof.
  intros w rest p L m Hfit. unfold _words_to_subtitles.
  pose proof (seg_loop_fit_done L (w :: rest) Hfit) as Hdone.
  pose proof (seg_loop_nonempty L (w :: rest)) as Hne.
  destruct (seg_loop L seg_init (w :: rest)) as [cues o] eqn:Hrun.
  simpl in Hdone, Hne. subst o.
  pose proof (seg_loop_some_cue L w rest cues Hrun) as Hsome.
  destruct cues as [|c1 [|c2 cues]]; [congruence|reflexivity|].
  exact (proj1 (adjust_loop_total m (c2 :: cues) c1 None Hne)).
Qed.

End EndToEnd.

(** ** Seconds that are not numbers *)

(** X15.  In binary64, seconds that are [nan], [inf] or [-inf] make
    [_srt_fmt_time] raise [ValueError]: [sec // 3600] is then [nan],
    and [int(nan)] is the first conversion attempted. *)
Theorem srt_fmt_time_not_finite :
  forall sec : float,
    PyFloat.not_finite sec = true ->
    _srt_fmt_time sec = inl ValueError.
Proof.
  intros sec H. unfold PyFloat.not_finite in H.
  rewrite <- (SF2Prim_Prim2SF sec).
  destruct (Prim2SF sec) as [s|s| |s m e]; try discriminate.
  - destruct s; vm_compute; reflexivity.
  - vm_compute. reflexivity.
Qed.

Lemma srt_fmt_time_not_finite_witness :
  PyFloat.not_finite PrimFloat.infinity = true /\
  _srt_fmt_time PrimFloat.infinity = inl ValueError.
Proof.
  split; [reflexivity|].
  apply (srt_fmt_time_not_finite PrimFloat.infinity). reflexivity.
Defined.

(** ** The properties above at sample inputs *)

Lemma words_to_subtitles_no_raise_witness :
  Forall (fun w => len (word w) <= 32) Samples.fox /\
  snd (_words_to_subtitles Samples.fox default_split_on_pause_gt 32) = Done.
Proof.
  assert (H : Forall (fun w => len (word w) <= 32) Samples.fox)
    by (repeat constructor; discriminate).
  split; [exact H|].
  exact (words_to_subtitles_no_raise Samples.fox default_split_on_pause_gt
           32 H).
Defined.

Lemma words_to_subtitles_first_word_too_long_witness :
  32 < len (word Samples.w33) /\
  _words_to_subtitles [Samples.w33; Samples.w_ok] default_split_on_pause_gt 32
  = ([], Raised IndexError).
Proof.
  split; [reflexivity|].
  apply (words_to_subtitles_first_word_too_long Samples.w33 [Samples.w_ok]).
  reflexivity.
Defined.

Lemma words_to_subtitles_full_cues_witness :
  Forall (fun w => count_lf (word w) = 0) Samples.three /\
  List.length
    (fst (_words_to_subtitles Samples.three default_split_on_pause_gt 32))
  = 2%nat /\
  Forall (fun c => count_lf (sentence c) = allowed_lines - 1)
    (removelast
       (fst (_words_to_subtitles Samples.three default_split_on_pause_gt 32))).
Proof.
  assert (H : Forall (fun w => count_lf (word w) = 0) Samples.three)
    by (repeat constructor).
  split; [exact H|]. split; [reflexivity|].
  exact (words_to_subtitles_full_cues Samples.three default_split_on_pause_gt
           32 H).
Defined.

Lemma words_to_subtitles_line_widths_witness :
  Forall (fun w => count_cr (word w) = 0 /\ len (word w) <= 32)
    [Samples.w30; Samples.w_end] /\
  map (fun c => line_widths (sentence c) 0)
    (fst (_words_to_subtitles [Samples.w30; Samples.w_end]
            default_split_on_pause_gt 32))
  = [[31; 5]] /\
  Forall (fun c => Forall (fun n => n <= 32 + 1) (line_widths (sentence c) 0))
    (fst (_words_to_subtitles [Samples.w30; Samples.w_end]
            default_split_on_pause_gt 32)).
Proof.
  assert (H : Forall (fun w => count_cr (word w) = 0 /\ len (word w) <= 32)
                [Samples.w30; Samples.w_end])
    by (repeat constructor; discriminate).
  split; [exact H|]. split; [reflexivity|].
  exact (words_to_subtitles_line_widths [Samples.w30; Samples.w_end]
           default_split_on_pause_gt 32 H).
Defined.

Lemma adjust_duration_total_witness :
  Forall (fun c : Subtitle Q => c <> []) Samples.spaced /\
  snd (_adjust_duration (Samples.spaced, Done) 1%Q) = Done /\
  List.length (fst (_adjust_duration (Samples.spaced, Done) 1%Q))
  = List.length Samples.spaced.
Proof.
  assert (H : Forall (fun c : Subtitle Q => c <> []) Samples.spaced)
    by (repeat constructor; discriminate).
  split; [exact H|].
  exact (adjust_duration_total _ _ _ 1%Q H).
Defined.

Lemma adjust_duration_lookahead_witness :
  nth_error Samples.spaced 0 = Some [Samples.QW "a" 0 (1#5)] /\
  nth_error Samples.spaced 1 = Some [Samples.QW "b" (1#2) (7#10)] /\
  nth_error (fst (_adjust_duration (Samples.spaced, Done) 1%Q)) 0
  = Some [Samples.QW "a" 0 (1#2)] /\
  adjust_body 1%Q [Samples.QW "a" 0 (1#5)] [Samples.QW "b" (1#2) (7#10)]
  = inr [Samples.QW "a" 0 (1#2)].
Proof.
  do 3 (split; [reflexivity|]).
  apply (adjust_duration_lookahead Samples.spaced Done 1%Q 0);
    reflexivity.
Defined.

Lemma words_to_srt_propagates_failure_witness :
  snd (_words_to_subtitles [Samples.w33] default_split_on_pause_gt
         default_split_on_length_gt) = Raised IndexError /\
  exists e', snd (words_to_srt [Samples.w33] EmptyString) = Raised e'.
Proof.
  split; [reflexivity|].
  apply (words_to_srt_propagates_failure [Samples.w33] EmptyString IndexError).
  reflexivity.
Defined.

Lemma words_to_subtitles_no_overlap_witness :
  words_chained Samples.three = true /\
  no_overlap
    (fst (_words_to_subtitles Samples.three default_split_on_pause_gt 32))
  = true.
Proof.
  split; [reflexivity|].
  apply (words_to_subtitles_no_overlap Samples.three
           default_split_on_pause_gt 32); reflexivity.
Defined.

Lemma cue_stream_ends_normally_witness :
  Forall (fun x => len (word x) <= 32) Samples.three /\
  snd (_adjust_duration
         (_words_to_subtitles Samples.three default_split_on_pause_gt 32)
         default_min_sub_duration) = Done.
Proof.
  assert (H : Forall (fun x => len (word x) <= 32) Samples.three)
    by (repeat constructor; discriminate).
  split; [exact H|].
  exact (cue_stream_ends_normally _ _ default_split_on_pause_gt 32
           default_min_sub_duration H).
Defined.

Lemma words_to_subtitles_keeps_words_witness :
  _words_to_subtitles Samples.three default_split_on_pause_gt 32
  = (fst (_words_to_subtitles Samples.three default_split_on_pause_gt 32),
     Done) /\
  Forall2 emitted_as Samples.three
    (List.concat
       (fst (_words_to_subtitles Samples.three default_split_on_pause_gt 32))).
Proof.
  split; [reflexivity|].
  apply (words_to_subtitles_keeps_words Samples.three
           default_split_on_pause_gt 32). reflexivity.
Defined.

Lemma adjust_duration_last_cue_unmodified_witness :
  last_error Samples.long_overlap = Some [Samples.W "b" 1 3] /\
  last_error
    (fst (_adjust_duration (Samples.long_overlap, Done)
            default_min_sub_duration))
  = Some [Samples.W "b" 1 3].
Proof.
  split; [reflexivity|].
  apply (adjust_duration_last_cue_unmodified
           [Samples.W "a" 0 2] [Samples.W "b" 1 3] []
           (fst (_adjust_duration (Samples.long_overlap, Done)
                   default_min_sub_duration))
           [Samples.W "b" 1 3] default_min_sub_duration);
    [reflexivity|discriminate|reflexivity].
Defined.

(** X19.  When no word is longer than [split_on_length_gt], the cue
    stream that reaches [_write_srt] never holds exactly one cue: a
    sole cue from the segmenter is dropped by [_adjust_duration], and
    from two cues on all of them come through. *)
Theorem cue_stream_never_single :
  forall (T : Type) (num : PyNum T) (words : list (Word T))
         (split_on_pause_gt : T) (split_on_length_gt : Z)
         (min_sub_duration : T),
    Forall (fun w => len (word w) <= split_on_length_gt) words ->
    List.length
      (fst (_adjust_duration
              (_words_to_subtitles words split_on_pause_gt
                 split_on_length_gt)
              min_sub_duration)) <> 1%nat.
Proof.
  intros T num words p L m Hfit. unfold _words_to_subtitles.
  pose proof (seg_loop_fit_done L words Hfit) as Hdone.
  pose proof (seg_loop_nonempty L words) as Hne.
  destruct (seg_loop L seg_init words) as [cues o].
  simpl in Hdone, Hne. subst o.
  destruct cues as [|c1 [|c2 cues]]; [discriminate|discriminate|].
  unfold _adjust_duration.
  rewrite (proj2 (adjust_loop_total m (c2 :: cues) c1 None Hne))
    by (right; congruence).
  discriminate.
Qed.

Lemma cue_stream_never_single_witness :
  Forall (fun w => len (word w) <= 32) Samples.fox /\
  List.length
    (fst (_adjust_duration
            (_words_to_subtitles Samples.fox default_split_on_pause_gt 32)
            default_min_sub_duration)) <> 1%nat.
Proof.
  assert (H : Forall (fun w => len (word w) <= 32) Samples.fox)
    by (repeat constructor; discriminate).
  split; [exact H|].
  exact (cue_stream_never_single float _ Samples.fox
           default_split_on_pause_gt 32 default_min_sub_duration H).
Defined.

(** * Timing in binary64 *)

(** ** Order and addition of binary64 values *)

Section FloatOrder.

Lemma SFcompare_antisym (a b : spec_float) :
  SFcompare b a = option_map CompOpp (SFcompare a b).
Proof.
  destruct a as [sa|sa| |sa ma ea], b as [sb|sb| |sb mb eb];
    try destruct sa; try destruct sb; try reflexivity;
    simpl; rewrite (Z.compare_antisym ea eb);
    destruct (ea ?= eb)%Z; simpl; try reflexivity;
    rewrite (Pos.compare_cont_antisym ma mb Eq); simpl;
    now destruct (Pos.compare_cont Eq ma mb).
Qed.

Lemma SFcompare_refl (a : spec_float) :
  a <> S754_nan -> SFcompare a a = Some Eq.
Proof.
  destruct a as [sa|sa| |sa ma ea]; try destruct sa;
    try reflexivity; try congruence; intros _; simpl;
    rewrite Z.compare_refl, Pos.compare_cont_refl; reflexivity.
Qed.

Lemma is_number_spec (x : float) :
  PyFloat.is_number x = true <-> Prim2SF x <> S754_nan.
Proof.
  unfold PyFloat.is_number.
  destruct (Prim2SF x); split; congruence.
Qed.

(** [a <= b] holds of numbers only. *)
Lemma leb_numbers (a b : float) :
  PrimFloat.leb a b = true ->
  PyFloat.is_number a = true /\ PyFloat.is_number b = true.
Proof.
  rewrite leb_spec. unfold SFleb, PyFloat.is_number.
  destruct (Prim2SF a), (Prim2SF b); simpl; try discriminate; now split.
Qed.

Lemma leb_refl_number (a : float) :
  PyFloat.is_number a = true -> PrimFloat.leb a a = true.
Proof.
  intros H. apply is_number_spec in H.
  rewrite leb_spec. unfold SFleb. now rewrite SFcompare_refl.
Qed.

(** On numbers the order is total: [not (a > b)] gives [a <= b]. *)
Lemma not_ltb_leb (a b : float) :
  PyFloat.is_number a = true -> PyFloat.is_number b = true ->
  PrimFloat.ltb b a = false -> PrimFloat.leb a b = true.
Proof.
  intros Ha Hb. apply is_number_spec in Ha, Hb.
  rewrite ltb_spec, leb_spec. unfold SFltb, SFleb.
  rewrite (SFcompare_antisym (Prim2SF a) (Prim2SF b)).
  destruct (SFcompare (Prim2SF a) (Prim2SF b)) as [[| |]|] eqn:E;
    simpl; try reflexivity; try discriminate.
  intros _. exfalso. clear - Ha Hb E.
  destruct (Prim2SF a), (Prim2SF b); simpl in E; congruence.
Qed.

Lemma iter_pos_inv (A : Type) (f : A -> A) (P : A -> Prop) :
  (forall x, P x -> P (f x)) ->
  forall (n : positive) (x : A), P x -> P (iter_pos f n x).
Proof.
  intros Hf. induction n as [n IH|n IH|]; intros x Hx; simpl; auto.
Qed.

Lemma shr_1_nonneg (mrs : shr_record) :
  (0 <= shr_m mrs)%Z -> (0 <= shr_m (shr_1 mrs))%Z.
Proof.
  destruct mrs as [m r s]. simpl.
  destruct m as [|[p|p|]|p]; simpl; lia.
Qed.

Lemma shr_fexp_nonneg (prec emax m e : Z) (l : location) :
  (0 <= m)%Z -> (0 <= shr_m (fst (shr_fexp prec emax m e l)))%Z.
Proof.
  intros Hm. unfold shr_fexp, shr.
  assert (H0 : (0 <= shr_m (shr_record_of_loc m l))%Z)
    by (destruct l as [|[| |]]; exact Hm).
  destruct (fexp prec emax (Zdigits2 m + e) - e)%Z; simpl; trivial.
  now apply iter_pos_inv; [apply shr_1_nonneg|].
Qed.

Lemma round_nearest_even_nonneg (m : Z) (l : location) :
  (0 <= m)%Z -> (0 <= round_nearest_even m l)%Z.
Proof.
  intros Hm. destruct l as [|[| |]]; simpl; trivial.
  - destruct (Z.even m); lia.
  - lia.
Qed.

(** Rounding a non-negative mantissa never gives [nan]. *)
Lemma binary_round_aux_number (prec emax : Z) (sx : bool) (mx ex : Z)
    (lx : location) :
  (0 <= mx)%Z -> binary_round_aux prec emax sx mx ex lx <> S754_nan.
Proof.
  intros Hm. unfold binary_round_aux.
  pose proof (shr_fexp_nonneg prec emax mx ex lx Hm) as H1.
  destruct (shr_fexp prec emax mx ex lx) as [mrs' e']. simpl in H1.
  pose proof (round_nearest_even_nonneg (shr_m mrs')
                (loc_of_shr_record mrs') H1) as H2.
  pose proof (shr_fexp_nonneg prec emax _ e' loc_Exact H2) as H3.
  destruct (shr_fexp prec emax
              (round_nearest_even (shr_m mrs') (loc_of_shr_record mrs'))
              e' loc_Exact) as [mrs'' e''].
  simpl in H3. destruct (shr_m mrs'') as [|p|p]; [discriminate| |lia].
  destruct (e'' <=? emax - prec)%Z; discriminate.
Qed.

Lemma binary_normalize_number (prec emax m e : Z) (szero : bool) :
  binary_normalize prec emax m e szero <> S754_nan.
Proof.
  unfold binary_normalize, binary_round.
  destruct m as [|p|p]; [discriminate| |];
    destruct (shl_align p e _) as [mz ez];
    apply binary_round_aux_number; lia.
Qed.

(** A number plus a finite value is a number. *)
Lemma add_number (x m : float) :
  PyFloat.is_number x = true -> PyFloat.not_finite m = false ->
  PyFloat.is_number (PrimFloat.add x m) = true.
Proof.
  intros Hx Hm. apply is_number_spec. apply is_number_spec in Hx.
  unfold PyFloat.not_finite in Hm.
  rewrite add_spec. unfold SF64add, SFadd.
  destruct (Prim2SF x) as [sx|sx| |sx mx ex]; [| |congruence|];
    destruct (Prim2SF m) as [sm|sm| |sm mm em]; try discriminate.
  - now destruct sx, sm.
  - apply binary_normalize_number.
Qed.

End FloatOrder.

(** ** Rounding to nearest is monotone

    [binary_normalize] rounds the exact result of an addition or a
    subtraction.  A representable value [f] that the exact result
    reaches is reached by the rounded result too, and one that bounds
    the exact result bounds the rounded one.  Values are compared as
    integer multiples of the smallest positive value of the format. *)

Section Rounding.

Variables prec emax : Z.
Hypothesis prec_pos : 0 < prec.

Local Abbreviation emin := (SpecFloat.emin prec emax).
Local Abbreviation fexp := (SpecFloat.fexp prec emax).

Lemma digits2_pos_bounds (p : positive) :
  2 ^ (Zpos (digits2_pos p) - 1) <= Zpos p < 2 ^ Zpos (digits2_pos p).
Proof.
  induction p as [p IH|p IH|]; simpl digits2_pos.
  - rewrite Pos2Z.inj_succ.
    replace (Z.succ (Zpos (digits2_pos p)) - 1)
      with (Z.succ (Zpos (digits2_pos p) - 1)) by lia.
    rewrite !Z.pow_succ_r by lia. lia.
  - rewrite Pos2Z.inj_succ.
    replace (Z.succ (Zpos (digits2_pos p)) - 1)
      with (Z.succ (Zpos (digits2_pos p) - 1)) by lia.
    rewrite !Z.pow_succ_r by lia. lia.
  - simpl. lia.
Qed.

Lemma Zdigits2_bounds (m : Z) :
  0 < m -> 2 ^ (Zdigits2 m - 1) <= m < 2 ^ Zdigits2 m.
Proof. destruct m as [|p|p]; try lia. intros _. apply digits2_pos_bounds. Qed.

Lemma Zdigits2_nonneg (m : Z) : 0 <= Zdigits2 m.
Proof. destruct m; simpl; lia. Qed.

Lemma Zdigits2_le (m k : Z) : 0 <= m -> m < 2 ^ k -> 0 <= k -> Zdigits2 m <= k.
Proof.
  intros Hm Hk Hk0. destruct (Z.eq_dec m 0) as [->|Hne]; [simpl; lia|].
  pose proof (Zdigits2_bounds m ltac:(lia)) as [Hlo _].
  pose proof (Zdigits2_nonneg m).
  destruct (Z.le_gt_cases (Zdigits2 m) k) as [H1|H1]; [exact H1|].
  exfalso. assert (2 ^ k <= 2 ^ (Zdigits2 m - 1))
    by (apply Z.pow_le_mono_r; lia). lia.
Qed.

Lemma Zdigits2_pow (k : Z) : 0 <= k -> Zdigits2 (2 ^ k) = k + 1.
Proof.
  intros Hk. assert (Hpos : 0 < 2 ^ k) by (apply Z.pow_pos_nonneg; lia).
  pose proof (Zdigits2_bounds _ Hpos) as [Hlo Hhi].
  pose proof (Zdigits2_nonneg (2 ^ k)).
  apply Z.pow_lt_mono_r_iff in Hhi; [|lia|lia].
  destruct (Z.le_gt_cases (Zdigits2 (2 ^ k)) (k + 1)) as [H1|H1]; [lia|].
  exfalso. assert (2 ^ (k + 1) <= 2 ^ (Zdigits2 (2 ^ k) - 1))
    by (apply Z.pow_le_mono_r; lia).
  rewrite Z.pow_add_r in H0 by lia. lia.
Qed.

Lemma shr_1_m (mrs : shr_record) :
  0 <= shr_m mrs -> shr_m (shr_1 mrs) = shr_m mrs / 2.
Proof.
  destruct mrs as [m r s]. simpl. intros Hm.
  destruct m as [|[p|p|]|p]; simpl; try lia; try reflexivity.
  - rewrite Pos2Z.inj_xI.
    rewrite (Z.mul_comm 2), Z.div_add_l by lia. simpl. lia.
  - rewrite Pos2Z.inj_xO.
    now rewrite (Z.mul_comm 2), Z.div_mul by lia.
Qed.

Lemma shr_iter_m (p : positive) :
  forall mrs : shr_record,
    0 <= shr_m mrs ->
    shr_m (iter_pos shr_1 p mrs) = shr_m mrs / 2 ^ Zpos p.
Proof.
  assert (Hdiv : forall a b c, 0 <= a -> 0 < b -> 0 < c -> 0 <= a / b)
    by (intros; apply Z.div_pos; lia).
  assert (Hp2 : forall q : positive, 0 < 2 ^ Zpos q)
    by (intros; apply Z.pow_pos_nonneg; lia).
  induction p as [p IH|p IH|]; intros mrs Hm; simpl iter_pos.
  - rewrite IH, IH, shr_1_m; trivial.
    + rewrite !Z.div_div by (try apply Hp2; lia).
      f_equal.
      replace (Zpos p~1) with (1 + Zpos p + Zpos p) by lia.
      rewrite !Z.pow_add_r by lia. simpl (2 ^ 1). lia.
    + rewrite shr_1_m by trivial. apply Z.div_pos; lia.
    + rewrite IH, shr_1_m; trivial.
      * apply Z.div_pos; [apply Z.div_pos; lia|apply Hp2].
      * rewrite shr_1_m by trivial. apply Z.div_pos; lia.
  - rewrite IH, IH; trivial.
    + rewrite Z.div_div by (try apply Hp2; lia).
      f_equal.
      replace (Zpos p~0) with (Zpos p + Zpos p) by lia.
      now rewrite Z.pow_add_r by lia.
    + rewrite IH by trivial. apply Z.div_pos; [lia|apply Hp2].
  - rewrite shr_1_m by trivial. reflexivity.
Qed.

Lemma round_nearest_even_bounds (m : Z) (l : location) :
  m <= round_nearest_even m l <= m + 1.
Proof.
  destruct l as [|[| |]]; simpl; try lia.
  destruct (Z.even m); lia.
Qed.


Lemma pow2_pos (k : Z) : 0 <= k -> 0 < 2 ^ k.
Proof. intros. apply Z.pow_pos_nonneg; lia. Qed.

Lemma pow2_le (a b : Z) : 0 <= a -> a <= b -> 2 ^ a <= 2 ^ b.
Proof. intros. apply Z.pow_le_mono_r; lia. Qed.

Lemma canonical_exp (m : positive) (e : Z) :
  canonical_mantissa prec emax m e = true ->
  emin <= e /\ Zpos (digits2_pos m) <= prec /\
  (emin < e -> Zpos (digits2_pos m) = prec).
Proof.
  unfold canonical_mantissa, SpecFloat.fexp. intros H%Z.eqb_eq. lia.
Qed.

Lemma digits_value_bounds (m e : Z) :
  0 < m -> emin <= e ->
  2 ^ (Zdigits2 m - 1 + (e - emin)) <= m * 2 ^ (e - emin)
  < 2 ^ (Zdigits2 m + (e - emin)).
Proof.
  intros Hm He. pose proof (Zdigits2_bounds m Hm) as [Hlo Hhi].
  assert (Hd : 0 < Zdigits2 m) by (destruct m; simpl; lia).
  pose proof (pow2_pos (e - emin) ltac:(lia)).
  rewrite !Z.pow_add_r by lia. split.
  - apply Z.mul_le_mono_nonneg_r; lia.
  - apply Z.mul_lt_mono_pos_r; lia.
Qed.

Lemma canonical_bounds (m : positive) (e : Z) :
  canonical_mantissa prec emax m e = true ->
  Zpos m * 2 ^ (e - emin) < 2 ^ (prec + (e - emin)) /\
  (emin < e -> 2 ^ (prec - 1 + (e - emin)) <= Zpos m * 2 ^ (e - emin)).
Proof.
  intros Hc. destruct (canonical_exp m e Hc) as (He & Hd & Hn).
  pose proof (digits_value_bounds (Zpos m) e ltac:(lia) He) as [Hlo Hhi].
  simpl Zdigits2 in Hlo, Hhi. split.
  - eapply Z.lt_le_trans; [exact Hhi|]. apply pow2_le; lia.
  - intros Hlt. rewrite (Hn Hlt) in Hlo. exact Hlo.
Qed.

Lemma shr_fexp_exact_lower (mx ex : Z) (mf : positive) (ef : Z)
      (mrs : shr_record) (e' : Z) :
  0 < mx -> emin <= ex ->
  canonical_mantissa prec emax mf ef = true ->
  Zpos mf * 2 ^ (ef - emin) <= mx * 2 ^ (ex - emin) ->
  shr_fexp prec emax mx ex loc_Exact = (mrs, e') ->
  0 <= shr_m mrs < 2 ^ prec /\ emin <= e' /\
  Zpos mf * 2 ^ (ef - emin) <= shr_m mrs * 2 ^ (e' - emin).
Proof.
  intros Hmx Hex Hc Hle. unfold shr_fexp, shr. simpl shr_record_of_loc.
  pose proof (Zdigits2_bounds mx Hmx) as [Hdlo Hdhi].
  assert (Hd : 0 < Zdigits2 mx) by (destruct mx; simpl; lia).
  set (d := Zdigits2 mx) in *.
  assert (Ht : fexp (d + ex) = Z.max (d + ex - prec) emin) by reflexivity.
  set (t := fexp (d + ex)) in *.
  assert (Hsmall : t - ex <= 0 -> 0 <= mx < 2 ^ prec).
  { intros Hn. split; [lia|]. eapply Z.lt_le_trans; [exact Hdhi|].
    apply pow2_le; lia. }
  destruct (t - ex) as [|p|p] eqn:En.
  - intros [= <- <-]. simpl shr_m. repeat split; try lia; apply Hsmall; lia.
  - intros [= <- <-].
    rewrite shr_iter_m by (simpl; lia). simpl shr_m.
    assert (Hp : 0 < 2 ^ Zpos p) by (apply pow2_pos; lia).
    split; [split|split].
    + apply Z.div_pos; lia.
    + apply Z.div_lt_upper_bound; [exact Hp|].
      rewrite <- Z.pow_add_r by lia.
      eapply Z.lt_le_trans; [exact Hdhi|]. apply pow2_le; lia.
    + lia.
    + destruct (canonical_exp mf ef Hc) as (Hef & Hdf & Hnf).
      destruct (canonical_bounds mf ef Hc) as (Hfhi & Hflo).
      pose proof (digits_value_bounds mx ex Hmx Hex) as [Hxlo Hxhi].
      fold d in Hxlo, Hxhi.
      replace (ex + Zpos p - emin) with ((ex - emin) + Zpos p) by lia.
      assert (Hk : 0 < 2 ^ (ex - emin)) by (apply pow2_pos; lia).
      destruct (Z.lt_trichotomy ef t) as [Hlt|[Heq|Hgt]].
      * (* f lies below the first binade of the rounding grid *)
        assert (Hq : 2 ^ (prec - 1) <= mx / 2 ^ Zpos p).
        { apply Z.div_le_lower_bound; [exact Hp|].
          rewrite <- Z.pow_add_r by lia.
          eapply Z.le_trans; [|exact Hdlo]. apply pow2_le; lia. }
        apply Z.le_trans with (2 ^ (prec - 1) * 2 ^ (ex - emin + Zpos p)).
        -- rewrite <- Z.pow_add_r by lia.
           apply Z.lt_le_incl. eapply Z.lt_le_trans; [exact Hfhi|].
           apply pow2_le; lia.
        -- apply Z.mul_le_mono_nonneg_r; [|exact Hq].
           apply Z.lt_le_incl, pow2_pos; lia.
      * (* f lies on the rounding grid *)
        assert (Hq : Zpos mf <= mx / 2 ^ Zpos p).
        { apply Z.div_le_lower_bound; [exact Hp|].
          replace (ef - emin) with ((ex - emin) + Zpos p) in Hle by lia.
          rewrite Z.pow_add_r in Hle by lia.
          apply (Z.mul_le_mono_pos_r _ _ (2 ^ (ex - emin))); [exact Hk|].
          lia. }
        replace (ef - emin) with ((ex - emin) + Zpos p) by lia.
        apply Z.mul_le_mono_nonneg_r; [|exact Hq].
        apply Z.lt_le_incl, pow2_pos; lia.
      * (* impossible: x would be smaller than f *)
        exfalso. specialize (Hflo ltac:(lia)).
        assert (2 ^ (d + (ex - emin)) <= 2 ^ (prec - 1 + (ef - emin)))
          by (apply pow2_le; lia).
        lia.
  - intros [= <- <-]. simpl shr_m. repeat split; try lia; apply Hsmall; lia.
Qed.

Lemma binary_round_aux_lower (sx : bool) (mx ex : Z) (mf : positive) (ef : Z) :
  0 < mx -> emin <= ex ->
  canonical_mantissa prec emax mf ef = true ->
  Zpos mf * 2 ^ (ef - emin) <= mx * 2 ^ (ex - emin) ->
  match binary_round_aux prec emax sx mx ex loc_Exact with
  | S754_finite s m e =>
      s = sx /\ Zpos mf * 2 ^ (ef - emin) <= Zpos m * 2 ^ (e - emin)
  | S754_infinity s => s = sx
  | _ => False
  end.
Proof.
  intros Hmx Hex Hc Hle. unfold binary_round_aux.
  destruct (shr_fexp prec emax mx ex loc_Exact) as [mrs e'] eqn:E1.
  destruct (shr_fexp_exact_lower mx ex mf ef mrs e' Hmx Hex Hc Hle E1)
    as ((Hm0 & Hm1) & He' & Hv).
  pose proof (round_nearest_even_bounds (shr_m mrs) (loc_of_shr_record mrs))
    as [Hr0 Hr1].
  set (m1 := round_nearest_even (shr_m mrs) (loc_of_shr_record mrs)) in *.
  assert (Hk : 0 < 2 ^ (e' - emin)) by (apply pow2_pos; lia).
  assert (Hf : 0 < Zpos mf * 2 ^ (ef - emin)).
  { destruct (canonical_exp mf ef Hc) as (Hef & _).
    pose proof (pow2_pos (ef - emin) ltac:(lia)). lia. }
  assert (Hmpos : 0 < shr_m mrs) by nia.
  assert (Hv1 : Zpos mf * 2 ^ (ef - emin) <= m1 * 2 ^ (e' - emin)) by nia.
  unfold shr_fexp, shr. simpl shr_record_of_loc.
  assert (Hfe : fexp (Zdigits2 m1 + e') = Z.max (Zdigits2 m1 + e' - prec) emin)
    by reflexivity.
  destruct (Z.eq_dec m1 (2 ^ prec)) as [Heq|Hne].
  - rewrite Heq in Hfe |- *. rewrite Zdigits2_pow in Hfe |- * by lia.
    replace (fexp (prec + 1 + e') - e') with 1 by lia.
    cbv beta iota. rewrite shr_iter_m by (simpl; lia). simpl shr_m.
    change (2 ^ 1) with 2.
    assert (Hh : 2 ^ prec / 2 = 2 ^ (prec - 1)).
    { replace prec with (1 + (prec - 1)) at 1 by lia.
      rewrite Z.pow_add_r by lia. change (2 ^ 1) with 2.
      rewrite Z.mul_comm, Z.div_mul by lia. reflexivity. }
    rewrite Hh. pose proof (pow2_pos (prec - 1) ltac:(lia)) as Hpp.
    destruct (2 ^ (prec - 1)) as [|q|q] eqn:Eq; try lia.
    destruct (e' + 1 <=? emax - prec); [|reflexivity].
    split; [reflexivity|]. rewrite <- Eq.
    eapply Z.le_trans; [exact Hv1|]. rewrite Heq.
    rewrite <- !Z.pow_add_r by lia. apply pow2_le; lia.
  - assert (Hd1 : Zdigits2 m1 <= prec) by (apply Zdigits2_le; lia).
    assert (Hn : fexp (Zdigits2 m1 + e') - e' <= 0) by lia.
    destruct (fexp (Zdigits2 m1 + e') - e') as [|p|p] eqn:En; try lia;
      simpl shr_m; (destruct m1 as [|q|q]; try lia);
      (destruct (e' <=? emax - prec); [|reflexivity]);
      (split; [reflexivity|exact Hv1]).
Qed.

Lemma pos_iter_xO (m d : positive) :
  Zpos (Pos.iter xO m d) = Zpos m * 2 ^ Zpos d.
Proof.
  induction d as [|d IH] using Pos.peano_ind.
  - simpl. change (2 ^ 1) with 2. lia.
  - rewrite Pos.iter_succ, Pos2Z.inj_xO, IH, Pos2Z.inj_succ.
    rewrite Z.pow_succ_r by lia. lia.
Qed.

Lemma shl_align_value (mx : positive) (ex ex' : Z) :
  emin <= ex -> emin <= ex' ->
  Zpos (fst (shl_align mx ex ex')) *
    2 ^ (snd (shl_align mx ex ex') - emin) = Zpos mx * 2 ^ (ex - emin) /\
  snd (shl_align mx ex ex') = Z.min ex ex'.
Proof.
  intros Hex Hex'. unfold shl_align.
  destruct (ex' - ex) as [|d|d] eqn:Ed; simpl fst; simpl snd.
  - split; [reflexivity|lia].
  - split; [reflexivity|lia].
  - split; [|lia]. rewrite pos_iter_xO.
    replace (ex - emin) with (Zpos d + (ex' - emin)) by lia.
    rewrite Z.pow_add_r by lia. lia.
Qed.

Lemma binary_round_lower (sx : bool) (mx : positive) (ex : Z)
      (mf : positive) (ef : Z) :
  emin <= ex ->
  canonical_mantissa prec emax mf ef = true ->
  Zpos mf * 2 ^ (ef - emin) <= Zpos mx * 2 ^ (ex - emin) ->
  match binary_round prec emax sx mx ex with
  | S754_finite s m e =>
      s = sx /\ Zpos mf * 2 ^ (ef - emin) <= Zpos m * 2 ^ (e - emin)
  | S754_infinity s => s = sx
  | _ => False
  end.
Proof.
  intros Hex Hc Hle. unfold binary_round.
  assert (Ht : emin <= fexp (Zpos (digits2_pos mx) + ex))
    by (unfold SpecFloat.fexp; lia).
  destruct (shl_align_value mx ex _ Hex Ht) as [Hv He].
  destruct (shl_align mx ex (fexp (Zpos (digits2_pos mx) + ex))) as [mz ez].
  simpl fst in Hv; simpl snd in Hv, He.
  apply binary_round_aux_lower; trivial; lia.
Qed.

Local Abbreviation valid := (SpecFloat.valid_binary prec emax).
Local Abbreviation value := (PyFloat.scaled prec emax).

Lemma valid_canonical (s : bool) (m : positive) (e : Z) :
  valid (S754_finite s m e) = true ->
  canonical_mantissa prec emax m e = true.
Proof. simpl. unfold bounded. now intros [H _]%andb_prop. Qed.

Lemma canonical_value_pos (m : positive) (e : Z) :
  canonical_mantissa prec emax m e = true -> 0 < Zpos m * 2 ^ (e - emin).
Proof.
  intros Hc. destruct (canonical_exp m e Hc) as (He & _).
  pose proof (pow2_pos (e - emin) ltac:(lia)). lia.
Qed.

Lemma valid_exp (s : bool) (m : positive) (e : Z) :
  valid (S754_finite s m e) = true -> e <= emax - prec.
Proof. simpl. unfold bounded. intros [_ H]%andb_prop. lia. Qed.

(** *** Shifts that lose nothing *)

Lemma shr_1_even (mrs : shr_record) (j : Z) :
  0 <= j -> shr_m mrs = 2 * j -> shr_r mrs = false -> shr_s mrs = false ->
  shr_1 mrs = Build_shr_record j false false.
Proof.
  destruct mrs as [m r s]. simpl. intros Hj -> -> ->.
  destruct j as [|q|q]; try lia; reflexivity.
Qed.

Lemma shr_iter_exact (p : positive) :
  forall m k : Z,
    0 <= k -> m = k * 2 ^ Zpos p ->
    iter_pos shr_1 p (Build_shr_record m false false)
    = Build_shr_record k false false.
Proof.
  assert (Hp2 : forall q : positive, 0 < 2 ^ Zpos q)
    by (intros; apply pow2_pos; lia).
  induction p as [p IH|p IH|]; intros m k Hk Hm; cbn [iter_pos].
  - rewrite (shr_1_even _ (k * 2 ^ Zpos p * 2 ^ Zpos p)); trivial.
    + rewrite (IH _ (k * 2 ^ Zpos p)); [apply IH; trivial| |reflexivity].
      pose proof (Hp2 p). nia.
    + pose proof (Hp2 p). nia.
    + simpl shr_m. rewrite Hm.
      replace (Zpos p~1) with (1 + Zpos p + Zpos p) by lia.
      rewrite !Z.pow_add_r by lia. change (2 ^ 1) with 2. lia.
  - rewrite (IH _ (k * 2 ^ Zpos p)); [apply IH; trivial| |].
    + pose proof (Hp2 p). nia.
    + rewrite Hm. replace (Zpos p~0) with (Zpos p + Zpos p) by lia.
      rewrite Z.pow_add_r by lia. lia.
  - apply shr_1_even; trivial. simpl shr_m. rewrite Hm.
    change (2 ^ 1) with 2. lia.
Qed.

(** *** Rounding a value that a representable [f] bounds from above *)

Lemma shr_fexp_exact_upper (mx ex : Z) (mf : positive) (ef : Z)
      (mrs : shr_record) (e' : Z) :
  0 < mx -> emin <= ex -> ex <= fexp (Zdigits2 mx + ex) ->
  canonical_mantissa prec emax mf ef = true ->
  mx * 2 ^ (ex - emin) <= Zpos mf * 2 ^ (ef - emin) ->
  shr_fexp prec emax mx ex loc_Exact = (mrs, e') ->
  0 < round_nearest_even (shr_m mrs) (loc_of_shr_record mrs) <= 2 ^ prec /\
  (emin <= e' <= ef) /\
  round_nearest_even (shr_m mrs) (loc_of_shr_record mrs) * 2 ^ (e' - emin)
  <= Zpos mf * 2 ^ (ef - emin).
Proof.
  intros Hmx Hex Hext Hc Hle. unfold shr_fexp, shr. simpl shr_record_of_loc.
  pose proof (Zdigits2_bounds mx Hmx) as [Hdlo Hdhi].
  assert (Hd : 0 < Zdigits2 mx) by (destruct mx; simpl; lia).
  set (d := Zdigits2 mx) in *.
  assert (Ht : fexp (d + ex) = Z.max (d + ex - prec) emin) by reflexivity.
  set (t := fexp (d + ex)) in *.
  destruct (canonical_exp mf ef Hc) as (Hef & Hdf & Hnf).
  destruct (canonical_bounds mf ef Hc) as (Hfhi & Hflo).
  pose proof (digits_value_bounds mx ex Hmx Hex) as [Hxlo Hxhi].
  fold d in Hxlo, Hxhi.
  assert (Htf : t <= ef).
  { assert (d - 1 + (ex - emin) < prec + (ef - emin)); [|lia].
    apply (Z.pow_lt_mono_r_iff 2); lia. }
  assert (Hsame : t - ex <= 0 ->
            0 < round_nearest_even mx loc_Exact <= 2 ^ prec /\
            (emin <= ex <= ef) /\
            round_nearest_even mx loc_Exact * 2 ^ (ex - emin)
            <= Zpos mf * 2 ^ (ef - emin)).
  { intros Hn. simpl round_nearest_even. repeat split; try lia.
    apply Z.lt_le_incl. eapply Z.lt_le_trans; [exact Hdhi|].
    apply pow2_le; lia. }
  destruct (t - ex) as [|p|p] eqn:En.
  - intros [= <- <-]. apply Hsame. lia.
  - intros [= <- <-].
    assert (Hp : 0 < 2 ^ Zpos p) by (apply pow2_pos; lia).
    assert (Hk : 0 < 2 ^ (ex - emin)) by (apply pow2_pos; lia).
    assert (Hg : 0 < 2 ^ (ef - t)) by (apply pow2_pos; lia).
    assert (Hpt : 2 ^ (ex + Zpos p - emin) = 2 ^ Zpos p * 2 ^ (ex - emin)).
    { rewrite <- Z.pow_add_r by lia. f_equal. lia. }
    assert (Hpf : 2 ^ (ef - emin)
                  = 2 ^ (ef - t) * (2 ^ Zpos p * 2 ^ (ex - emin))).
    { rewrite <- !Z.pow_add_r by lia. f_equal. lia. }
    set (G := Zpos mf * 2 ^ (ef - t)).
    assert (HG : 0 < G) by (unfold G; lia).
    assert (HxG : mx <= G * 2 ^ Zpos p).
    { apply (Z.mul_le_mono_pos_r _ _ (2 ^ (ex - emin))); [exact Hk|].
      rewrite Hpf in Hle. unfold G. lia. }
    assert (Hfv : Zpos mf * 2 ^ (ef - emin) = G * 2 ^ (ex + Zpos p - emin)).
    { rewrite Hpt, Hpf. unfold G. lia. }
    assert (Hq : 2 ^ (prec - 1) <= mx / 2 ^ Zpos p).
    { apply Z.div_le_lower_bound; [exact Hp|].
      rewrite <- Z.pow_add_r by lia.
      eapply Z.le_trans; [|exact Hdlo]. apply pow2_le; lia. }
    assert (Hq1 : mx / 2 ^ Zpos p < 2 ^ prec).
    { apply Z.div_lt_upper_bound; [exact Hp|].
      rewrite <- Z.pow_add_r by lia.
      eapply Z.lt_le_trans; [exact Hdhi|]. apply pow2_le; lia. }
    pose proof (pow2_pos (prec - 1) ltac:(lia)) as Hpp.
    pose proof (pow2_pos (ex + Zpos p - emin) ltac:(lia)) as Hptp.
    assert (Hm : shr_m (iter_pos shr_1 p (Build_shr_record mx false false))
                 = mx / 2 ^ Zpos p) by (apply shr_iter_m; simpl; lia).
    set (mrs := iter_pos shr_1 p (Build_shr_record mx false false)) in *.
    pose proof (round_nearest_even_bounds (shr_m mrs) (loc_of_shr_record mrs))
      as [Hr0 Hr1].
    set (m1 := round_nearest_even (shr_m mrs) (loc_of_shr_record mrs)) in *.
    rewrite Hm in Hr0, Hr1.
    rewrite Hfv. split; [lia|split; [lia|]].
    apply Z.mul_le_mono_nonneg_r; [lia|].
    destruct (Z.eq_dec mx (G * 2 ^ Zpos p)) as [Heq|Hne].
    + unfold m1, mrs. rewrite (shr_iter_exact p mx G) by (trivial; lia).
      simpl. lia.
    + assert (mx / 2 ^ Zpos p < G); [|lia].
      apply Z.div_lt_upper_bound; [exact Hp|]. lia.
  - intros [= <- <-]. apply Hsame. lia.
Qed.

Lemma shr_fexp_round_finish (m1 e' : Z) :
  0 < m1 <= 2 ^ prec -> emin <= e' ->
  exists (q : positive) (e'' : Z),
    shr_m (fst (shr_fexp prec emax m1 e' loc_Exact)) = Zpos q /\
    snd (shr_fexp prec emax m1 e' loc_Exact) = e'' /\
    Zpos q * 2 ^ (e'' - emin) = m1 * 2 ^ (e' - emin) /\
    (e'' = e' \/ (m1 = 2 ^ prec /\ e'' = e' + 1)).
Proof.
  intros [Hm0 Hm1] He'. unfold shr_fexp, shr. simpl shr_record_of_loc.
  assert (Hfe : fexp (Zdigits2 m1 + e') = Z.max (Zdigits2 m1 + e' - prec) emin)
    by reflexivity.
  destruct (Z.eq_dec m1 (2 ^ prec)) as [Heq|Hne].
  - rewrite Heq in Hfe |- *. rewrite Zdigits2_pow in Hfe |- * by lia.
    replace (fexp (prec + 1 + e') - e') with 1 by lia.
    cbv beta iota. cbn [fst snd].
    rewrite shr_iter_m by (simpl; lia). simpl shr_m. change (2 ^ 1) with 2.
    assert (Hh : 2 ^ prec / 2 = 2 ^ (prec - 1)).
    { replace prec with (1 + (prec - 1)) at 1 by lia.
      rewrite Z.pow_add_r by lia. change (2 ^ 1) with 2.
      rewrite Z.mul_comm, Z.div_mul by lia. reflexivity. }
    rewrite Hh. pose proof (pow2_pos (prec - 1) ltac:(lia)) as Hpp.
    destruct (2 ^ (prec - 1)) as [|q|q] eqn:Eq; try lia.
    exists q, (e' + 1). repeat split; [|right; split; reflexivity].
    rewrite <- Eq, <- !Z.pow_add_r by lia. f_equal. lia.
  - assert (Hd1 : Zdigits2 m1 <= prec) by (apply Zdigits2_le; lia).
    assert (Hn : fexp (Zdigits2 m1 + e') - e' <= 0) by lia.
    destruct m1 as [|q|q]; try lia. exists q, e'.
    destruct (fexp (Zdigits2 (Zpos q) + e') - e') as [|p|p] eqn:En; try lia;
      simpl; repeat split; auto.
Qed.

Lemma binary_round_aux_upper (sx : bool) (mx ex : Z) (mf : positive) (ef : Z) :
  0 < mx -> emin <= ex -> ex <= fexp (Zdigits2 mx + ex) ->
  canonical_mantissa prec emax mf ef = true -> ef <= emax - prec ->
  mx * 2 ^ (ex - emin) <= Zpos mf * 2 ^ (ef - emin) ->
  exists (m : positive) (e : Z),
    binary_round_aux prec emax sx mx ex loc_Exact = S754_finite sx m e /\
    Zpos m * 2 ^ (e - emin) <= Zpos mf * 2 ^ (ef - emin).
Proof.
  intros Hmx Hex Hext Hc Hefm Hle. unfold binary_round_aux.
  destruct (shr_fexp prec emax mx ex loc_Exact) as [mrs e'] eqn:E1.
  destruct (shr_fexp_exact_upper mx ex mf ef mrs e' Hmx Hex Hext Hc Hle E1)
    as (Hm1 & (He' & He'f) & Hv).
  set (m1 := round_nearest_even (shr_m mrs) (loc_of_shr_record mrs)) in *.
  destruct (shr_fexp_round_finish m1 e' Hm1 He')
    as (q & e'' & Hq & He'' & Hval & Hcase).
  destruct (shr_fexp prec emax m1 e' loc_Exact) as [mrs'' e2].
  simpl fst in Hq; simpl snd in He''. subst e2. rewrite Hq.
  assert (Hfin : e'' <= emax - prec).
  { destruct Hcase as [->|[Heq ->]]; [lia|].
    destruct (canonical_bounds mf ef Hc) as (Hfhi & _).
    rewrite Heq, <- Z.pow_add_r in Hv by lia.
    assert (prec + (e' - emin) < prec + (ef - emin)); [|lia].
    apply (Z.pow_lt_mono_r_iff 2); lia. }
  apply Z.leb_le in Hfin. rewrite Hfin.
  exists q, e''. split; [reflexivity|]. rewrite Hval. exact Hv.
Qed.

Lemma digits2_pos_iter (m k : positive) :
  digits2_pos (Pos.iter xO m k) = (digits2_pos m + k)%positive.
Proof.
  induction k as [|k IH] using Pos.peano_ind.
  - simpl. now rewrite Pos.add_1_r.
  - rewrite Pos.iter_succ. simpl digits2_pos. rewrite IH.
    now rewrite Pos.add_succ_r.
Qed.

Lemma binary_round_upper (sx : bool) (mx : positive) (ex : Z)
      (mf : positive) (ef : Z) :
  emin <= ex ->
  canonical_mantissa prec emax mf ef = true -> ef <= emax - prec ->
  Zpos mx * 2 ^ (ex - emin) <= Zpos mf * 2 ^ (ef - emin) ->
  exists (m : positive) (e : Z),
    binary_round prec emax sx mx ex = S754_finite sx m e /\
    Zpos m * 2 ^ (e - emin) <= Zpos mf * 2 ^ (ef - emin).
Proof.
  intros Hex Hc Hefm Hle. unfold binary_round, shl_align.
  assert (Ht : fexp (Zpos (digits2_pos mx) + ex)
               = Z.max (Zpos (digits2_pos mx) + ex - prec) emin) by reflexivity.
  set (t := fexp (Zpos (digits2_pos mx) + ex)) in *.
  destruct (t - ex) as [|k|k] eqn:Ek.
  - apply binary_round_aux_upper; trivial; try lia. simpl Zdigits2. fold t. lia.
  - apply binary_round_aux_upper; trivial; try lia. simpl Zdigits2. fold t. lia.
  - apply binary_round_aux_upper; trivial; try lia.
    + simpl Zdigits2. rewrite digits2_pos_iter, Pos2Z.inj_add.
      replace (Zpos (digits2_pos mx) + Zpos k + t)
        with (Zpos (digits2_pos mx) + ex) by lia.
      fold t. lia.
    + rewrite pos_iter_xO.
      replace (ex - emin) with (Zpos k + (t - emin)) in Hle by lia.
      rewrite Z.pow_add_r in Hle by lia. lia.
Qed.

(** *** Comparison of canonical values *)

Lemma canonical_compare (m1 : positive) (e1 : Z) (m2 : positive) (e2 : Z) :
  canonical_mantissa prec emax m1 e1 = true ->
  canonical_mantissa prec emax m2 e2 = true ->
  match e1 ?= e2 with
  | Lt => Lt
  | Gt => Gt
  | Eq => Pos.compare_cont Eq m1 m2
  end = (Zpos m1 * 2 ^ (e1 - emin) ?= Zpos m2 * 2 ^ (e2 - emin)).
Proof.
  intros H1 H2.
  destruct (canonical_exp m1 e1 H1) as (He1 & _).
  destruct (canonical_exp m2 e2 H2) as (He2 & _).
  destruct (canonical_bounds m1 e1 H1) as (Hhi1 & Hlo1).
  destruct (canonical_bounds m2 e2 H2) as (Hhi2 & Hlo2).
  destruct (Z.compare_spec e1 e2) as [Heq|Hlt|Hgt].
  - subst e2. pose proof (pow2_pos (e1 - emin) ltac:(lia)) as Hk.
    change (Pos.compare_cont Eq m1 m2) with (Zpos m1 ?= Zpos m2).
    destruct (Z.compare_spec (Zpos m1) (Zpos m2)); symmetry;
      [apply Z.compare_eq_iff|apply Z.compare_lt_iff|apply Z.compare_gt_iff];
      nia.
  - symmetry. apply Z.compare_lt_iff. specialize (Hlo2 ltac:(lia)).
    assert (2 ^ (prec + (e1 - emin)) <= 2 ^ (prec - 1 + (e2 - emin)))
      by (apply pow2_le; lia).
    lia.
  - symmetry. apply Z.compare_gt_iff. specialize (Hlo1 ltac:(lia)).
    assert (2 ^ (prec + (e2 - emin)) <= 2 ^ (prec - 1 + (e1 - emin)))
      by (apply pow2_le; lia).
    lia.
Qed.

Lemma SFleb_value (f g : spec_float) :
  PyFloat.sf_finite f = true -> PyFloat.sf_finite g = true ->
  valid f = true -> valid g = true ->
  value f <= value g ->
  SFleb f g = true.
Proof.
  intros Ff Fg Vf Vg Hle.
  destruct f as [sf|sf| |sf mf ef]; try discriminate Ff;
    destruct g as [sg|sg| |sg mg eg]; try discriminate Fg.
  - reflexivity.
  - pose proof (canonical_value_pos mg eg (valid_canonical _ _ _ Vg)).
    destruct sg; [|reflexivity]. unfold PyFloat.scaled, cond_Zopp in Hle. lia.
  - pose proof (canonical_value_pos mf ef (valid_canonical _ _ _ Vf)).
    destruct sf; [reflexivity|]. unfold PyFloat.scaled, cond_Zopp in Hle. lia.
  - pose proof (canonical_value_pos mf ef (valid_canonical _ _ _ Vf)) as Hf.
    pose proof (canonical_value_pos mg eg (valid_canonical _ _ _ Vg)) as Hg.
    pose proof (canonical_compare mf ef mg eg (valid_canonical _ _ _ Vf)
                  (valid_canonical _ _ _ Vg)) as Hc.
    unfold SFleb, SFcompare.
    destruct sf, sg; unfold PyFloat.scaled, cond_Zopp in Hle; try reflexivity;
      try (exfalso; lia).
    + destruct (ef ?= eg).
      * rewrite Hc.
        destruct (Z.compare_spec (Zpos mf * 2 ^ (ef - emin))
                                 (Zpos mg * 2 ^ (eg - emin))); trivial; lia.
      * exfalso. symmetry in Hc. apply -> Z.compare_lt_iff in Hc. lia.
      * reflexivity.
    + destruct (ef ?= eg).
      * rewrite Hc.
        destruct (Z.compare_spec (Zpos mf * 2 ^ (ef - emin))
                                 (Zpos mg * 2 ^ (eg - emin))); trivial; lia.
      * reflexivity.
      * exfalso. symmetry in Hc. apply -> Z.compare_gt_iff in Hc. lia.
Qed.

Lemma binary_round_class (sx : bool) (k : positive) (z : Z) :
  emin <= z ->
  match binary_round prec emax sx k z with
  | S754_finite s _ _ | S754_infinity s => s = sx
  | _ => False
  end.
Proof.
  intros Hz.
  assert (Hc : canonical_mantissa prec emax 1 emin = true).
  { unfold canonical_mantissa, SpecFloat.fexp. simpl digits2_pos.
    apply Z.eqb_eq. lia. }
  assert (Hle : 1 * 2 ^ (emin - emin) <= Zpos k * 2 ^ (z - emin)).
  { rewrite Z.sub_diag. pose proof (pow2_pos (z - emin) ltac:(lia)).
    change (2 ^ 0) with 1. nia. }
  pose proof (binary_round_lower sx k z 1 emin Hz Hc Hle) as H.
  destruct (binary_round prec emax sx k z); trivial. apply H.
Qed.

(** *** Rounding is monotone and keeps representable values *)

Lemma binary_normalize_lower (f : spec_float) (k z : Z) :
  PyFloat.sf_finite f = true -> valid f = true ->
  emin <= z ->
  value f <= k * 2 ^ (z - emin) ->
  valid (binary_normalize prec emax k z false) = true ->
  SFleb f (binary_normalize prec emax k z false) = true.
Proof.
  intros Ff Vf Hz Hle Vr.
  pose proof (pow2_pos (z - emin) ltac:(lia)) as Hp.
  destruct k as [|k|k].
  - simpl binary_normalize. apply SFleb_value; trivial.
  - simpl binary_normalize in *.
    pose proof (binary_round_class false k z Hz) as Hcl.
    destruct f as [sf|sf| |[|] mf ef]; try discriminate Ff.
    + destruct (binary_round prec emax false k z) as [s|s| |s m e];
        try contradiction; subst s; reflexivity.
    + destruct (binary_round prec emax false k z) as [s|s| |s m e];
        try contradiction; subst s; reflexivity.
    + pose proof (binary_round_lower false k z mf ef Hz
                    (valid_canonical _ _ _ Vf) Hle) as Hlo.
      destruct (binary_round prec emax false k z) as [s|s| |s m e];
        try contradiction.
      * subst s. reflexivity.
      * destruct Hlo as [-> Hlo]. apply SFleb_value; trivial.
  - simpl binary_normalize in *.
    destruct f as [sf|sf| |[|] mf ef]; try discriminate Ff;
      try (exfalso; unfold PyFloat.scaled, cond_Zopp in Hle; lia).
    destruct (binary_round_upper true k z mf ef Hz
                (valid_canonical _ _ _ Vf) (valid_exp _ _ _ Vf))
      as (m & e & Hr & Hv).
    { unfold PyFloat.scaled, cond_Zopp in Hle. lia. }
    rewrite Hr in Vr |- *. apply SFleb_value; trivial.
    unfold PyFloat.scaled, cond_Zopp. lia.
Qed.

Lemma aligned_value (s : bool) (m : positive) (e z : Z) :
  emin <= e -> emin <= z -> z <= e ->
  cond_Zopp s (Zpos (fst (shl_align m e z))) * 2 ^ (z - emin)
  = value (S754_finite s m e).
Proof.
  intros He Hz Hze. destruct (shl_align_value m e z He Hz) as [Hv Hs].
  rewrite Hs, Z.min_r in Hv by lia.
  unfold PyFloat.scaled, cond_Zopp. destruct s; lia.
Qed.

Lemma SFsub_lower (E S M : spec_float) :
  PyFloat.sf_finite E = true -> PyFloat.sf_finite S = true ->
  PyFloat.sf_finite M = true ->
  valid E = true -> valid S = true -> valid M = true ->
  valid (SFsub prec emax E S) = true ->
  value M <= value E - value S ->
  SFleb M (SFsub prec emax E S) = true.
Proof.
  intros FE FS FM VE VS VM VR Hle.
  destruct S as [sS|sS| |sS mS eS]; try discriminate FS;
    destruct E as [sE|sE| |sE mE eE]; try discriminate FE.
  - destruct sE, sS; simpl; apply SFleb_value; trivial.
  - simpl SFsub. apply SFleb_value; trivial.
    unfold PyFloat.scaled in *. lia.
  - simpl SFsub in *. apply SFleb_value; trivial.
    unfold PyFloat.scaled, cond_Zopp in *. destruct sS; cbn [negb] in *; lia.
  - destruct (canonical_exp mE eE (valid_canonical _ _ _ VE)) as (HeE & _).
    destruct (canonical_exp mS eS (valid_canonical _ _ _ VS)) as (HeS & _).
    unfold SFsub in *.
    pose proof (aligned_value sE mE eE (Z.min eE eS) HeE ltac:(lia) ltac:(lia))
      as HvE.
    pose proof (aligned_value sS mS eS (Z.min eE eS) HeS ltac:(lia) ltac:(lia))
      as HvS.
    apply binary_normalize_lower; trivial; lia.
Qed.

Lemma SFadd_lower (E S M : spec_float) :
  PyFloat.sf_finite E = true -> PyFloat.sf_finite S = true ->
  PyFloat.sf_finite M = true ->
  valid E = true -> valid S = true -> valid M = true ->
  valid (SFadd prec emax S M) = true ->
  value E <= value S + value M ->
  SFleb E (SFadd prec emax S M) = true.
Proof.
  intros FE FS FM VE VS VM VR Hle.
  destruct S as [sS|sS| |sS mS eS]; try discriminate FS;
    destruct M as [sM|sM| |sM mM eM]; try discriminate FM.
  - destruct sS, sM; simpl; apply SFleb_value; trivial.
  - simpl SFadd. apply SFleb_value; trivial.
  - simpl SFadd. apply SFleb_value; trivial.
    unfold PyFloat.scaled in *. lia.
  - destruct (canonical_exp mS eS (valid_canonical _ _ _ VS)) as (HeS & _).
    destruct (canonical_exp mM eM (valid_canonical _ _ _ VM)) as (HeM & _).
    unfold SFadd in *.
    pose proof (aligned_value sS mS eS (Z.min eS eM) HeS ltac:(lia) ltac:(lia))
      as HvS.
    pose proof (aligned_value sM mM eM (Z.min eS eM) HeM ltac:(lia) ltac:(lia))
      as HvM.
    apply binary_normalize_lower; trivial; lia.
Qed.

(** Where the difference [E - S] falls short of [M], the sum [S + M]
    reaches [E]. *)
Lemma SFsub_short_SFadd_reaches (E S M : spec_float) :
  PyFloat.sf_finite E = true -> PyFloat.sf_finite S = true ->
  PyFloat.sf_finite M = true ->
  valid E = true -> valid S = true -> valid M = true ->
  valid (SFsub prec emax E S) = true ->
  valid (SFadd prec emax S M) = true ->
  SFleb M (SFsub prec emax E S) = false ->
  SFleb E (SFadd prec emax S M) = true.
Proof.
  intros FE FS FM VE VS VM VR VA Hshort.
  destruct (Z.le_gt_cases (value M) (value E - value S)) as [Hle|Hgt].
  - rewrite SFsub_lower in Hshort by trivial. discriminate.
  - apply SFadd_lower; trivial; lia.
Qed.

End Rounding.

(** ** Positions in the adjuster's output *)

Section AdjusterPositions.

Context {T : Type} {num : PyNum T}.

Lemma same_but_end_start (a b : Subtitle T) :
  same_but_end a b -> cue_start b = cue_start a.
Proof.
  intros [-> | [t ->]]; [reflexivity|].
  now apply cue_start_update_last.
Qed.

Lemma Forall2_nth_error_r (A B : Type) (R : A -> B -> Prop)
    (l : list A) (l' : list B) :
  Forall2 R l l' ->
  forall (i : nat) (b : B),
    nth_error l' i = Some b -> exists a, nth_error l i = Some a /\ R a b.
Proof.
  induction 1 as [|x y l l' Hxy _ IH]; intros i b Hb.
  - now destruct i.
  - destruct i as [|i]; simpl in Hb.
    + injection Hb as <-. now exists x.
    + now apply IH.
Qed.

Lemma nth_error_firstn_some (A : Type) (k : nat) (l : list A) :
  forall (i : nat) (a : A),
    nth_error (firstn k l) i = Some a -> nth_error l i = Some a.
Proof.
  revert l. induction k as [|k IH]; intros l i a H.
  - now destruct i.
  - destruct l as [|x l]; [now destruct i|].
    destruct i as [|i]; [exact H|]. simpl in H |- *. now apply IH.
Qed.

(** The cue emitted at a position comes from the input cue at that
    position, and starts when it starts. *)
Lemma adjust_duration_nth_input (cues : list (Subtitle T)) (up : outcome)
    (m : T) (i : nat) (y : Subtitle T) :
  nth_error (fst (_adjust_duration (cues, up) m)) i = Some y ->
  exists c, nth_error cues i = Some c /\ same_but_end c y.
Proof.
  intros Hy.
  assert (Hsame : exists k, Forall2 same_but_end (firstn k cues)
                              (fst (_adjust_duration (cues, up) m))).
  { unfold _adjust_duration. destruct cues as [|first rest].
    - exists 0%nat. destruct up; constructor.
    - apply adjust_loop_same. now left. }
  destruct Hsame as [k Hk].
  destruct (Forall2_nth_error_r _ _ _ _ _ Hk i y Hy) as (c & Hc & Hcy).
  exists c. split; [|exact Hcy]. now apply (nth_error_firstn_some _ k).
Qed.

Lemma adjust_duration_nth_body (cues : list (Subtitle T)) (up : outcome)
    (m : T) (i : nat) (c next y : Subtitle T) :
  nth_error cues i = Some c ->
  nth_error cues (S i) = Some next ->
  nth_error (fst (_adjust_duration (cues, up) m)) i = Some y ->
  adjust_body m c next = inr y.
Proof.
  intros Hc Hn Hy. unfold _adjust_duration in Hy.
  destruct cues as [|first rest]; [now destruct i|].
  now apply (adjust_loop_nth m up rest first None i c next y).
Qed.

(** The cue emitted for the last input cue is that cue, and it is not
    empty (line 141). *)
Lemma adjust_loop_nth_last (m : T) (up : outcome) (rest : list (Subtitle T)) :
  forall (prev : Subtitle T) (this : option (Subtitle T)) (i : nat)
         (c y : Subtitle T),
    (this = None \/ this = Some prev) ->
    nth_error (prev :: rest) i = Some c ->
    nth_error (prev :: rest) (S i) = None ->
    nth_error (fst (adjust_loop m prev this rest up)) i = Some y ->
    y = c /\ c <> [].
Proof.
  induction rest as [|next rest IH]; intros prev this i c y Hthis Hc Hn Hy.
  - simpl in Hy. destruct i as [|i]; [|now destruct i].
    simpl in Hc. injection Hc as <-.
    destruct up; [|discriminate].
    destruct Hthis as [-> | ->]; [discriminate|].
    destruct prev; simpl in Hy; [discriminate|]. split; congruence.
  - simpl in Hy. destruct i as [|i]; [discriminate|].
    destruct (adjust_body m prev next) as [e|y0]; [now destruct i|].
    destruct (adjust_loop m next (Some next) rest up) as [out o] eqn:El.
    simpl in Hy.
    apply (IH next (Some next) i c y); auto. now rewrite El.
Qed.

Lemma adjust_duration_nth_last (cues : list (Subtitle T)) (up : outcome)
    (m : T) (i : nat) (c y : Subtitle T) :
  nth_error cues i = Some c ->
  nth_error cues (S i) = None ->
  nth_error (fst (_adjust_duration (cues, up) m)) i = Some y ->
  y = c /\ c <> [].
Proof.
  intros Hc Hn Hy. unfold _adjust_duration in Hy.
  destruct cues as [|first rest]; [now destruct i|].
  apply (adjust_loop_nth_last m up rest first None i c y); auto.
Qed.

(** The loop body, case by case. *)
Lemma adjust_body_cases (m : T) (c next y : Subtitle T) :
  adjust_body m c next = inr y ->
  (lasts m c = true /\ y = c) \/
  exists s e s' : T,
    cue_start c = Some s /\ cue_end c = Some e /\
    cue_start next = Some s' /\ lasts m c = false /\
    ((num_gt (num_add s m) s' = true /\
      y = update_last (fun w => set_end_time w s') c /\
      cue_end y = Some s')
     \/
     (num_gt (num_add s m) s' = false /\
      y = update_last (fun w => set_end_time w (num_add s m)) c /\
      cue_end y = Some (num_add s m))).
Proof.
  unfold adjust_body, lasts.
  destruct (cue_end c) as [e|] eqn:He; [|discriminate].
  destruct (cue_start c) as [s|] eqn:Hs; [|discriminate].
  destruct (num_ge (num_sub e s) m) eqn:Hge.
  - intros [= <-]. now left.
  - destruct (cue_start next) as [s'|] eqn:Hs'; [|discriminate].
    assert (Hlast : exists l, last_error c = Some l).
    { unfold cue_end in He. destruct (last_error c) as [l|]; [|discriminate].
      now exists l. }
    destruct Hlast as [l Hl].
    intros Hy. right. exists s, e, s'. do 4 (split; [reflexivity|]).
    destruct (num_gt (num_add s m) s'); injection Hy as <-;
      [left|right]; (split; [reflexivity|split; [reflexivity|]]);
      now rewrite cue_end_update_last, Hl.
Qed.

End AdjusterPositions.

(** ** The duration adjuster on binary64 times *)

Lemma starts_sorted_nth {T : Type} {num : PyNum T}
    (cues : list (Subtitle T)) :
  starts_sorted cues = true ->
  forall (i : nat) (c c' : Subtitle T),
    nth_error cues i = Some c -> nth_error cues (S i) = Some c' ->
    starts_before c c' = true.
Proof.
  induction cues as [|a cues IH]; intros Hs i c c' Hc Hc'.
  - now destruct i.
  - destruct cues as [|b cues]; [now destruct i|].
    change (starts_before a b && starts_sorted (b :: cues) = true) in Hs.
    apply andb_prop in Hs as [Hab Hs].
    destruct i as [|i]; simpl in Hc, Hc'.
    + now injection Hc as <-; injection Hc' as <-.
    + now apply (IH Hs i).
Qed.

Lemma last_error_In {A : Type} (l : list A) (x : A) :
  last_error l = Some x -> In x l.
Proof.
  induction l as [|a l IH]; [discriminate|].
  destruct l as [|b l]; simpl.
  - intros [= ->]. now left.
  - intros H. right. now apply IH.
Qed.

Lemma last_error_some {A : Type} (l : list A) :
  l <> [] -> exists x, last_error l = Some x.
Proof.
  induction l as [|a l IH]; [congruence|]. intros _.
  destruct l as [|b l]; [now exists a|].
  destruct IH as [x Hx]; [congruence|]. now exists x.
Qed.

Section AdjusterBinary64.

Lemma not_finite_sf (x : float) :
  PyFloat.not_finite x = false -> PyFloat.sf_finite (Prim2SF x) = true.
Proof. unfold PyFloat.not_finite. now destruct (Prim2SF x). Qed.

Lemma not_finite_number (x : float) :
  PyFloat.not_finite x = false -> PyFloat.is_number x = true.
Proof.
  unfold PyFloat.not_finite, PyFloat.is_number. now destruct (Prim2SF x).
Qed.

(** [a < b] holds of numbers only. *)
Lemma ltb_number_l (a b : float) :
  PrimFloat.ltb a b = true -> PyFloat.is_number a = true.
Proof.
  rewrite ltb_spec. unfold SFltb, PyFloat.is_number. intros H.
  destruct (Prim2SF a), (Prim2SF b); try discriminate H; reflexivity.
Qed.

(** On finite values, where [e - s >= m] fails, [e <= s + m] holds:
    the test of line 127 failing means the new end of line 138 is
    not below the old one. *)
Lemma sub_short_add_reaches (e s m : float) :
  PyFloat.not_finite e = false ->
  PyFloat.not_finite s = false ->
  PyFloat.not_finite m = false ->
  PrimFloat.leb m (PrimFloat.sub e s) = false ->
  PrimFloat.leb e (PrimFloat.add s m) = true.
Proof.
  intros Fe%not_finite_sf Fs%not_finite_sf Fm%not_finite_sf.
  rewrite !leb_spec, sub_spec, add_spec. intros Hshort.
  apply (SFsub_short_SFadd_reaches prec emax); trivial;
    try apply Prim2SF_valid; try reflexivity.
  - rewrite <- sub_spec. apply Prim2SF_valid.
  - rewrite <- add_spec. apply Prim2SF_valid.
Qed.

Lemma finite_times_nth (cues : list (Subtitle float)) (i : nat)
    (c : Subtitle float) :
  finite_times cues = true -> nth_error cues i = Some c ->
  forallb finite_word c = true.
Proof.
  unfold finite_times. intros H Hc.
  apply nth_error_In in Hc.
  exact (proj1 (forallb_forall _ _) H c Hc).
Qed.

Lemma finite_cue_start (c : Subtitle float) (s : float) :
  forallb finite_word c = true -> cue_start c = Some s ->
  PyFloat.not_finite s = false.
Proof.
  unfold cue_start. destruct c as [|w r]; [discriminate|].
  simpl. intros H [= <-]. apply andb_prop in H as [H _].
  unfold finite_word in H. apply andb_prop in H as [H _].
  now apply negb_true_iff.
Qed.

Lemma finite_cue_end (c : Subtitle float) (e : float) :
  forallb finite_word c = true -> cue_end c = Some e ->
  PyFloat.not_finite e = false.
Proof.
  unfold cue_end. intros H He.
  destruct (last_error c) as [l|] eqn:El; [|discriminate].
  injection He as <-. apply last_error_In in El.
  pose proof (proj1 (forallb_forall _ _) H l El) as Hl.
  unfold finite_word in Hl. apply andb_prop in Hl as [_ Hl].
  now apply negb_true_iff.
Qed.

Lemma finite_cue_unchanged (c : Subtitle float) :
  forallb finite_word c = true -> c <> [] ->
  end_not_decreased c c = true.
Proof.
  intros Hf Hne. destruct (last_error_some c Hne) as [l Hl].
  assert (He : cue_end c = Some (end_time l))
    by (unfold cue_end; now rewrite Hl).
  unfold end_not_decreased. rewrite He.
  apply leb_refl_number, not_finite_number.
  exact (finite_cue_end c _ Hf He).
Qed.

Lemma ends_before_start (a b b' : Subtitle float) :
  cue_start b' = cue_start b -> ends_before a b' = ends_before a b.
Proof. unfold ends_before. now intros ->. Qed.

(** C3 (amended).  For a time-ordered cue sequence and a finite
    [min_sub_duration]: of two adjacent cues yielded by
    [_adjust_duration], the first ends no later than the second
    starts, unless the first lasts [min_sub_duration] or more on
    input, in which case it is the input cue passed through
    unchanged (line 130), overlap included. *)
Theorem adjust_duration_adjacent_pairs :
  forall (cues : list (Subtitle float)) (up : outcome)
         (min_sub_duration : float) (i : nat) (y y' : Subtitle float),
    time_ordered cues = true ->
    PyFloat.not_finite min_sub_duration = false ->
    nth_error (fst (_adjust_duration (cues, up) min_sub_duration)) i
    = Some y ->
    nth_error (fst (_adjust_duration (cues, up) min_sub_duration)) (S i)
    = Some y' ->
    ends_before y y' = true \/
    exists c : Subtitle float,
      nth_error cues i = Some c /\
      lasts min_sub_duration c = true /\ y = c.
Proof.
  intros cues up m i y y' Hord Hm Hy Hy'.
  destruct (adjust_duration_nth_input cues up m i y Hy) as (c & Hc & _).
  destruct (adjust_duration_nth_input cues up m (S i) y' Hy')
    as (c' & Hc' & Hsame').
  pose proof (same_but_end_start _ _ Hsame') as Hst.
  pose proof (adjust_duration_nth_body cues up m i c c' y Hc Hc' Hy)
    as Hbody.
  destruct (adjust_body_cases m c c' y Hbody)
    as [[Hl ->] | (s & e & s' & Hs & He & Hs' & Hshort & Hcase)].
  - right. now exists c.
  - left. unfold time_ordered in Hord. apply andb_prop in Hord as [_ Hord].
    pose proof (starts_sorted_nth cues Hord i c c' Hc Hc') as Hss.
    unfold starts_before in Hss. rewrite Hs, Hs' in Hss.
    apply leb_numbers in Hss as [Hns Hns'].
    rewrite (ends_before_start y c' y' Hst). unfold ends_before.
    destruct Hcase as [(Hgt & _ & Hend) | (Hgt & _ & Hend)];
      rewrite Hend, Hs'.
    + now apply leb_refl_number.
    + apply not_ltb_leb; [now apply add_number|exact Hns'|exact Hgt].
Qed.

(** C4 (amended).  For a cue sequence whose times are finite and a
    finite [min_sub_duration]: the cue yielded at a position ends no
    earlier than the input cue at that position, unless that cue is
    shorter than [min_sub_duration] and ends after its successor
    starts; then its [end_time] is set to the successor's
    [start_time] (line 136), which is lower. *)
Theorem adjust_duration_end_not_decreased :
  forall (cues : list (Subtitle float)) (up : outcome)
         (min_sub_duration : float) (i : nat) (c y : Subtitle float),
    finite_times cues = true ->
    PyFloat.not_finite min_sub_duration = false ->
    nth_error cues i = Some c ->
    nth_error (fst (_adjust_duration (cues, up) min_sub_duration)) i
    = Some y ->
    end_not_decreased c y = true \/
    exists (next : Subtitle float) (s' : float),
      nth_error cues (S i) = Some next /\
      cue_start next = Some s' /\
      lasts min_sub_duration c = false /\
      ends_before c next = false /\
      y = update_last (fun w => set_end_time w s') c.
Proof.
  intros cues up m i c y Hfin Hm Hc Hy.
  pose proof (finite_times_nth cues i c Hfin Hc) as Hfc.
  destruct (nth_error cues (S i)) as [next|] eqn:Hn.
  - pose proof (adjust_duration_nth_body cues up m i c next y Hc Hn Hy)
      as Hbody.
    destruct (adjust_body_cases m c next y Hbody)
      as [[Hl ->] | (s & e & s' & Hs & He & Hs' & Hshort & Hcase)].
    + left. apply finite_cue_unchanged; [exact Hfc|].
      intros ->. discriminate Hl.
    + pose proof (finite_cue_start c s Hfc Hs) as Hfs.
      pose proof (finite_cue_end c e Hfc He) as Hfe.
      destruct Hcase as [(Hgt & Hyc & Hend) | (Hgt & Hyc & Hend)].
      * destruct (ends_before c next) eqn:Hov.
        -- left. unfold end_not_decreased. rewrite He, Hend.
           unfold ends_before in Hov. now rewrite He, Hs' in Hov.
        -- right. now exists next, s'.
      * left. unfold end_not_decreased. rewrite He, Hend.
        unfold lasts in Hshort. rewrite He, Hs in Hshort.
        now apply sub_short_add_reaches.
  - left. destruct (adjust_duration_nth_last cues up m i c y Hc Hn Hy)
      as [-> Hne].
    now apply finite_cue_unchanged.
Qed.

(** One iteration on a cue that ends before its successor starts. *)
Lemma adjust_body_chain (m : float) (prev next y : Subtitle float) :
  PyFloat.not_finite m = false ->
  forallb finite_word prev = true ->
  ends_before prev next = true ->
  adjust_body m prev next = inr y ->
  end_not_decreased prev y = true /\ ends_before y next = true /\
  cue_start y = cue_start prev.
Proof.
  intros Hm Hf Hov Hbody.
  destruct (adjust_body_cases m prev next y Hbody)
    as [[Hl ->] | (s & e & s' & Hs & He & Hs' & Hshort & Hcase)].
  - repeat split; trivial. apply finite_cue_unchanged; [exact Hf|].
    intros ->. discriminate Hl.
  - pose proof (finite_cue_start prev s Hf Hs) as Hfs.
    pose proof (finite_cue_end prev e Hf He) as Hfe.
    unfold ends_before in Hov. rewrite He, Hs' in Hov.
    pose proof (leb_numbers _ _ Hov) as [_ Hns'].
    unfold end_not_decreased, ends_before.
    destruct Hcase as [(Hgt & -> & Hend) | (Hgt & -> & Hend)];
      rewrite He, Hend, Hs'.
    + split; [exact Hov|]. split; [now apply leb_refl_number|].
      now apply cue_start_update_last.
    + split.
      { unfold lasts in Hshort. rewrite He, Hs in Hshort.
        now apply sub_short_add_reaches. }
      split; [|now apply cue_start_update_last].
      apply not_ltb_leb; [|exact Hns'|exact Hgt].
      apply add_number; [now apply not_finite_number|exact Hm].
Qed.

Lemma adjust_loop_chain (m : float) (up : outcome)
    (rest : list (Subtitle float)) :
  PyFloat.not_finite m = false ->
  forall (prev : Subtitle float) (this : option (Subtitle float)),
    (this = None \/ this = Some prev) ->
    no_overlap (prev :: rest) = true ->
    finite_times (prev :: rest) = true ->
    no_overlap (fst (adjust_loop m prev this rest up)) = true /\
    ends_never_decrease (prev :: rest)
      (fst (adjust_loop m prev this rest up)) = true /\
    match fst (adjust_loop m prev this rest up) with
    | y :: _ => cue_start y = cue_start prev
    | [] => True
    end.
Proof.
  intros Hm. induction rest as [|next rest IH]; intros prev this Hthis Hno Hfin.
  - simpl. destruct up; [|now repeat split].
    destruct Hthis as [-> | ->]; [now repeat split|].
    destruct prev as [|w r]; [now repeat split|]. simpl truthy. cbv iota.
    simpl fst. repeat split.
    unfold ends_never_decrease. simpl combine. simpl forallb.
    rewrite andb_true_r. apply finite_cue_unchanged; [|congruence].
    unfold finite_times in Hfin. simpl forallb in Hfin.
    now apply andb_prop in Hfin as [Hfin _].
  - rewrite no_overlap_cons in Hno. apply andb_prop in Hno as [Hov Hno].
    unfold finite_times in Hfin.
    change (forallb finite_word prev
            && finite_times (next :: rest) = true) in Hfin.
    apply andb_prop in Hfin as [Hfp Hfin].
    simpl adjust_loop.
    destruct (adjust_body m prev next) as [e|y] eqn:Hbody;
      [now repeat split|].
    destruct (adjust_body_chain m prev next y Hm Hfp Hov Hbody)
      as (Hend & Hyb & Hys).
    destruct (IH next (Some next) (or_intror eq_refl) Hno Hfin)
      as (Hno' & Hends' & Hhead).
    destruct (adjust_loop m next (Some next) rest up) as [out o].
    simpl fst in *. split; [|split; [|exact Hys]].
    + rewrite no_overlap_cons. destruct out as [|y' out]; [reflexivity|].
      rewrite Hno', andb_true_r.
      now rewrite (ends_before_start y next y' Hhead).
    + change (end_not_decreased prev y
              && ends_never_decrease (next :: rest) out = true).
      now rewrite Hend, Hends'.
Qed.

Lemma finite_times_concat (cues : list (Subtitle float)) :
  forallb finite_word (List.concat cues) = true ->
  finite_times cues = true.
Proof.
  unfold finite_times. induction cues as [|c cues IH]; [reflexivity|].
  simpl. rewrite forallb_app. intros [H1 H2]%andb_prop.
  now rewrite H1, IH.
Qed.

Lemma finite_words_emitted (ws fl : list (Word float)) :
  Forall2 emitted_as ws fl -> forallb finite_word ws = true ->
  forallb finite_word fl = true.
Proof.
  induction 1 as [|w w' ws fl Hw _ IH]; [reflexivity|].
  simpl. intros [H1 H2]%andb_prop.
  destruct Hw as (Hs & He & _).
  unfold finite_word in *. rewrite Hs, He, H1. simpl. now apply IH.
Qed.

(** X14.  End to end, on finite binary64 times and a finite
    [min_sub_duration]: when each word ends no later than the next
    word starts and the segmenter ends normally, no cue yielded by
    [_adjust_duration] overlaps its successor and none ends earlier
    than the segmenter made it end. *)
Theorem cue_stream_no_overlap :
  forall (words : list (Word float)) (split_on_pause_gt : float)
         (split_on_length_gt : Z) (min_sub_duration : float)
         (cues : list (Subtitle float)),
    _words_to_subtitles words split_on_pause_gt split_on_length_gt
    = (cues, Done) ->
    words_chained words = true ->
    forallb finite_word words = true ->
    PyFloat.not_finite min_sub_duration = false ->
    no_overlap (fst (_adjust_duration (cues, Done) min_sub_duration)) = true
    /\ ends_never_decrease cues
         (fst (_adjust_duration (cues, Done) min_sub_duration)) = true.
Proof.
  intros words p L m cues Hrun Hch Hfw Hm.
  pose proof (seg_loop_no_overlap L words cues Hrun Hch) as Hno.
  assert (Hfin : finite_times cues = true).
  { apply finite_times_concat, (finite_words_emitted words); [|exact Hfw].
    exact (seg_loop_words L words seg_init [] cues seg_words_init Hrun). }
  unfold _adjust_duration. destruct cues as [|first rest]; [now split|].
  destruct (adjust_loop_chain m Done rest Hm first None
              (or_introl eq_refl) Hno Hfin) as (H1 & H2 & _).
  now split.
Qed.

End AdjusterBinary64.

(** ** The binary64 properties at sample inputs *)

Lemma adjust_duration_adjacent_pairs_witness :
  time_ordered Samples.short_overlap = true /\
  PyFloat.not_finite (@default_min_sub_duration float _) = false /\
  (ends_before [Samples.W "a" 0.0 0.5] [Samples.W "b" 0.5 2.0] = true \/
   exists c : Subtitle float,
     nth_error Samples.short_overlap 0 = Some c /\
     lasts default_min_sub_duration c = true /\
     [Samples.W "a" 0.0 0.5] = c).
Proof.
  split; [reflexivity|]. split; [reflexivity|].
  apply (adjust_duration_adjacent_pairs Samples.short_overlap Done
           default_min_sub_duration 0
           [Samples.W "a" 0.0 0.5] [Samples.W "b" 0.5 2.0]);
    reflexivity.
Defined.

Lemma adjust_duration_end_not_decreased_witness :
  finite_times Samples.short_overlap = true /\
  PyFloat.not_finite (@default_min_sub_duration float _) = false /\
  (end_not_decreased [Samples.W "a" 0.0 0.75] [Samples.W "a" 0.0 0.5] = true
   \/
   exists (next : Subtitle float) (s' : float),
     nth_error Samples.short_overlap 1 = Some next /\
     cue_start next = Some s' /\
     lasts default_min_sub_duration [Samples.W "a" 0.0 0.75] = false /\
     ends_before [Samples.W "a" 0.0 0.75] next = false /\
     [Samples.W "a" 0.0 0.5]
     = update_last (fun w => set_end_time w s') [Samples.W "a" 0.0 0.75]).
Proof.
  split; [reflexivity|]. split; [reflexivity|].
  apply (adjust_duration_end_not_decreased Samples.short_overlap Done
           default_min_sub_duration 0
           [Samples.W "a" 0.0 0.75] [Samples.W "a" 0.0 0.5]);
    reflexivity.
Defined.

Lemma cue_stream_no_overlap_witness :
  words_chained Samples.three = true /\
  forallb finite_word Samples.three = true /\
  no_overlap
    (fst (_adjust_duration
            (_words_to_subtitles Samples.three default_split_on_pause_gt 32)
            default_min_sub_duration)) = true /\
  ends_never_decrease
    (fst (_words_to_subtitles Samples.three default_split_on_pause_gt 32))
    (fst (_adjust_duration
            (_words_to_subtitles Samples.three default_split_on_pause_gt 32)
            default_min_sub_duration)) = true.
Proof.
  split; [reflexivity|]. split; [reflexivity|].
  apply (cue_stream_no_overlap Samples.three default_split_on_pause_gt 32
           default_min_sub_duration
           (fst (_words_to_subtitles Samples.three
                   default_split_on_pause_gt 32)));
    reflexivity.
Defined.
